(** * A capacity-bounded LRU cache with TTL buckets (package [ttl])

    Shallow embedding of the Go package [ttl]: the types [Item], [bucket] and
    [LRU], the constructor [NewLRU] and the methods [Purge], [Add], [Get],
    [Remove], [RemoveOldest], [removeOldest], [removeElement],
    [deleteExpired], [addToBucket] and [removeFromBucket].

    Conventions of the embedding.
    - A [*list.Element] (and the [*Item] stored in its [Value] field, which is
      never reassigned) is an address of type [positive]; the cells live in
      the [heap] field of the cache. The Key Index [items] and the bucket maps
      [entries] hold addresses, so that they alias the same cell, as in Go.
    - [time.Time] is an integer count of nanoseconds measured from Go's zero
      [Time]; [time.Duration] is an integer count of nanoseconds. The reading
      of the clock ([time.Now()]) is an argument [now] of each method that
      reads it.
    - A run-time panic (nil dereference, index out of range) is [None].
    - The mutex is held during every method, so a method is one atomic state
      transformer.  [sync.Mutex] and the [done] channel carry no data.
    - The sweeper goroutine is the step [reachable_sweep] of the reachable
      states: [deleteExpired] gives up the mutex while it sleeps, so its two
      critical sections are two transformers and calls may run in between.
    - The order in which Go ranges over a map is an enumeration of the map
      given to the loop.  [Purge] and [deleteExpired_sweep] take that of
      [map_to_list]; [Purge_loops_any_order] and [reachable_sweep] cover every
      other one. *)

(** The file also embeds the package [simple] ([NewLru], [Set], [purge],
    [Get]) in the module [simple], and relates the two caches through the
    projection [forget]. *)

From stdpp Require Import gmap strings list fin_maps.

Open Scope Z_scope.

(** ** Go base types *)

(** The empty interface [any], at the dynamic types used below. *)
Inductive any : Type :=
  | nil
  | IntVal (n : Z)
  | StrVal (s : string).

(** Conversion of an integer to [uint8]: wrap-around modulo 2^8. *)
Definition uint8 (z : Z) : Z := z mod 256.

(** ** time

    A [time.Time] is its distance in nanoseconds from the zero [Time], a
    [time.Duration] a number of nanoseconds. *)
Module time.

(** The zero value of [time.Time]. *)
Definition zero : Z := 0.

(** [t.Add(d)] *)
Definition Add (t d : Z) : Z := t + d.

(** [t.Before(u)] and [t.After(u)], both strict. *)
Definition Before (t u : Z) : bool := t <? u.
Definition After (t u : Z) : bool := u <? t.

(** [time.Until(t)] read at the instant [now]. *)
Definition Until (t now : Z) : Z := t - now.

End time.

(** ** container/list

    A [list.List] is the sequence of its elements' addresses, front first.
    The test [e.list == l] that guards [MoveToFront] and [Remove] is
    membership of [e] in the sequence. *)
Module clist.

Definition PushFront (e : positive) (l : list positive) : list positive :=
  e :: l.

Definition Back (l : list positive) : option positive := last l.

Definition Remove (e : positive) (l : list positive) : list positive :=
  filter (λ x, x ≠ e) l.

Definition MoveToFront (e : positive) (l : list positive) : list positive :=
  if decide (e ∈ l) then e :: filter (λ x, x ≠ e) l else l.

End clist.

(** ** Data model *)

Record Item : Type := mkItem {
  Key : string;
  Value : any;
  ExpiresAt : Z;
  ExpireBucket : Z
}.

Record bucket : Type := mkBucket {
  entries : gmap string positive;
  newestEntry : Z
}.

Record LRU : Type := mkLRU {
  cap : Z;
  queue : list positive;
  items : gmap string positive;
  ttl : Z;
  buckets : list bucket;
  nextCleanupBucket : Z;
  heap : gmap positive Item
}.

Definition numBuckets : Z := 100.

(** Field assignments. *)
Definition set_queue (q : list positive) (c : LRU) : LRU :=
  mkLRU (cap c) q (items c) (ttl c) (buckets c) (nextCleanupBucket c) (heap c).

Definition set_items (m : gmap string positive) (c : LRU) : LRU :=
  mkLRU (cap c) (queue c) m (ttl c) (buckets c) (nextCleanupBucket c) (heap c).

Definition set_buckets (bs : list bucket) (c : LRU) : LRU :=
  mkLRU (cap c) (queue c) (items c) (ttl c) bs (nextCleanupBucket c) (heap c).

Definition set_nextCleanupBucket (n : Z) (c : LRU) : LRU :=
  mkLRU (cap c) (queue c) (items c) (ttl c) (buckets c) n (heap c).

Definition set_heap (h : gmap positive Item) (c : LRU) : LRU :=
  mkLRU (cap c) (queue c) (items c) (ttl c) (buckets c) (nextCleanupBucket c) h.

(** ** Constructor *)

Definition NewLRU (cap ttl : Z) : LRU :=
  let cap := if cap <? 0 then 0 else cap in
  let ttl := if ttl <? 0 then 0 else ttl in
  mkLRU cap [] ∅ ttl
        (replicate (Z.to_nat numBuckets) (mkBucket ∅ time.zero)) 0 ∅.

(** ** Bucket membership *)

(** [delete(c.buckets[e.ExpireBucket].entries, e.Key)] *)
Definition removeFromBucket (e : positive) (c : LRU) : option LRU :=
  it ← heap c !! e;
  b ← buckets c !! Z.to_nat (ExpireBucket it);
  Some (set_buckets
          (<[Z.to_nat (ExpireBucket it) :=
               mkBucket (delete (Key it) (entries b)) (newestEntry b)]>
             (buckets c)) c).

(** The index computed by [addToBucket], in [uint8] arithmetic. *)
Definition bucketId (c : LRU) : Z :=
  uint8 (uint8 (numBuckets + nextCleanupBucket c) - 1) mod numBuckets.

Definition addToBucket (e : positive) (c : LRU) : option LRU :=
  let id := bucketId c in
  it ← heap c !! e;
  let it' := mkItem (Key it) (Value it) (ExpiresAt it) id in
  b ← buckets c !! Z.to_nat id;
  let newest :=
    if time.Before (newestEntry b) (ExpiresAt it') then ExpiresAt it'
    else newestEntry b in
  Some (set_buckets
          (<[Z.to_nat id := mkBucket (<[Key it' := e]> (entries b)) newest]>
             (buckets c))
          (set_heap (<[e := it']> (heap c)) c)).

(** ** Removal *)

Definition removeElement (e : positive) (c : LRU) : option LRU :=
  it ← heap c !! e;
  removeFromBucket e
    (set_items (delete (Key it) (items c))
       (set_queue (clist.Remove e (queue c)) c)).

Definition removeOldest (c : LRU) : option LRU :=
  match clist.Back (queue c) with
  | Some ent => removeElement ent c
  | None => Some c
  end.

Definition Remove (key : string) (c : LRU) : option (bool * LRU) :=
  match items c !! key with
  | Some ent => c' ← removeElement ent c; Some (true, c')
  | None => Some (false, c)
  end.

Definition RemoveOldest (c : LRU) : option (string * any * bool * LRU) :=
  match clist.Back (queue c) with
  | Some ent =>
      c' ← removeElement ent c;
      it ← heap c' !! ent;
      Some (Key it, Value it, true, c')
  | None => Some (EmptyString, nil, false, c)
  end.

(** ** Add and Get *)

Definition Add (key : string) (value : any) (now : Z) (c : LRU) : option LRU :=
  match items c !! key with
  | Some ent =>
      let c1 := set_queue (clist.MoveToFront ent (queue c)) c in
      c2 ← removeFromBucket ent c1;
      it ← heap c2 !! ent;
      let it' :=
        mkItem (Key it) value (time.Add now (ttl c2)) (ExpireBucket it) in
      addToBucket ent (set_heap (<[ent := it']> (heap c2)) c2)
  | None =>
      c1 ← (if Z.of_nat (size (items c)) =? cap c
            then removeOldest c else Some c);
      let ent := fresh (dom (heap c1)) in
      let it := mkItem key value (time.Add now (ttl c1)) 0 in
      let c2 := set_heap (<[ent := it]> (heap c1)) c1 in
      let c3 := set_queue (clist.PushFront ent (queue c2)) c2 in
      let c4 := set_items (<[key := ent]> (items c3)) c3 in
      addToBucket ent c4
  end.

Definition Get (key : string) (now : Z) (c : LRU) : option (any * bool * LRU) :=
  match items c !! key with
  | Some ent =>
      it ← heap c !! ent;
      if time.After now (ExpiresAt it) then Some (nil, false, c)
      else Some (Value it, true,
                 set_queue (clist.MoveToFront ent (queue c)) c)
  | None => Some (nil, false, c)
  end.

(** ** Range loops over maps

    Go visits the entries of a map in an unspecified order and does not
    produce an entry that was deleted before it was reached.  A loop is a
    recursion over an enumeration of the map taken when the loop starts;
    each iteration first checks that its key is still present. *)

Fixpoint Purge_items (l : list (string * positive))
    (m : gmap string positive) : gmap string positive :=
  match l with
  | [] => m
  | (k, _) :: l' =>
      match m !! k with
      | Some _ => Purge_items l' (delete k m)
      | None => Purge_items l' m
      end
  end.

Fixpoint Purge_entries (h : gmap positive Item) (l : list (string * positive))
    (m : gmap string positive) : option (gmap string positive) :=
  match l with
  | [] => Some m
  | (k, ent) :: l' =>
      match m !! k with
      | Some _ => it ← h !! ent; Purge_entries h l' (delete (Key it) m)
      | None => Purge_entries h l' m
      end
  end.

Definition Purge_bucket (h : gmap positive Item) (b : bucket) : option bucket :=
  m ← Purge_entries h (map_to_list (entries b)) (entries b);
  Some (mkBucket m (newestEntry b)).

Definition Purge (c : LRU) : option LRU :=
  let m := Purge_items (map_to_list (items c)) (items c) in
  bs ← mapM (Purge_bucket (heap c)) (buckets c);
  Some (set_queue [] (set_buckets bs (set_items m c))).

(** ** The sweeper *)

Fixpoint deleteExpired_loop (bucketIdx : Z) (l : list (string * positive))
    (c : LRU) : option LRU :=
  match l with
  | [] => Some c
  | (k, ent) :: l' =>
      b ← buckets c !! Z.to_nat bucketIdx;
      match entries b !! k with
      | Some _ => c' ← removeElement ent c; deleteExpired_loop bucketIdx l' c'
      | None => deleteExpired_loop bucketIdx l' c
      end
  end.

(** First critical section of [deleteExpired]: the bucket index that is
    read and the time still to wait ([time.Until]); the sweeper sleeps,
    without the lock, when the latter is positive. *)
Definition deleteExpired_wait (now : Z) (c : LRU) : option (Z * Z) :=
  let bucketIdx := nextCleanupBucket c in
  b ← buckets c !! Z.to_nat bucketIdx;
  Some (bucketIdx, time.Until (newestEntry b) now).

(** Second critical section: the range loop over the bucket whose index was
    read before the sleep, its members visited in the order [l], then the
    advance of the cursor. *)
Definition deleteExpired_sweep_from (l : list (string * positive))
    (bucketIdx : Z) (c : LRU) : option LRU :=
  c' ← deleteExpired_loop bucketIdx l c;
  Some (set_nextCleanupBucket
          (uint8 (nextCleanupBucket c' + 1) mod numBuckets) c').

(** The same, the bucket visited in the order of [map_to_list]. *)
Definition deleteExpired_sweep (bucketIdx : Z) (c : LRU) : option LRU :=
  b ← buckets c !! Z.to_nat bucketIdx;
  deleteExpired_sweep_from (map_to_list (entries b)) bucketIdx c.

(** [deleteExpired] when no other method runs during the sleep. *)
Definition deleteExpired (now : Z) (c : LRU) : option LRU :=
  '(bucketIdx, _) ← deleteExpired_wait now c;
  deleteExpired_sweep bucketIdx c.

(** ** Executions

    The caller-invoked methods as one type of calls; [call] keeps the state a
    call leaves behind and drops its results. *)
Inductive op : Type :=
  | OpAdd (key : string) (value : any)
  | OpGet (key : string)
  | OpRemove (key : string)
  | OpRemoveOldest
  | OpPurge.

Definition call (o : op) (now : Z) (c : LRU) : option LRU :=
  match o with
  | OpAdd key value => Add key value now c
  | OpGet key => r ← Get key now c; Some r.2
  | OpRemove key => r ← Remove key c; Some r.2
  | OpRemoveOldest => r ← RemoveOldest c; Some r.2
  | OpPurge => Purge c
  end.

(** The states a cache can be in: built by [NewLRU], then changed by calls
    at arbitrary clock readings and, when a sweeper was started ([ttl ≠ 0]),
    by the second critical section of [deleteExpired] on the bucket under the
    cursor, its members visited in any order (only the sweeper moves the
    cursor, so the index it read before sleeping is still the cursor). *)
Inductive reachable : LRU → Prop :=
  | reachable_NewLRU cap ttl : reachable (NewLRU cap ttl)
  | reachable_call c o now c' :
      reachable c → call o now c = Some c' → reachable c'
  | reachable_sweep c b l c' :
      reachable c → ttl c ≠ 0 →
      buckets c !! Z.to_nat (nextCleanupBucket c) = Some b →
      l ≡ₚ map_to_list (entries b) →
      deleteExpired_sweep_from l (nextCleanupBucket c) c = Some c' →
      reachable c'.

(** A sequence of calls, each with the clock reading it sees. *)
Fixpoint run (l : list (op * Z)) (c : LRU) : option LRU :=
  match l with
  | [] => Some c
  | (o, now) :: l' => c' ← call o now c; run l' c'
  end.

(** A sequence of [Add]s: key, value and clock reading of each. *)
Fixpoint run_adds (l : list (string * any * Z)) (c : LRU) : option LRU :=
  match l with
  | [] => Some c
  | (key, value, now) :: l' => c' ← Add key value now c; run_adds l' c'
  end.

(** The number of live entries: [len(c.items)]. *)
Definition Len (c : LRU) : nat := size (items c).

(** ** Representation invariant *)

(** The entry [e] stored under [k] is a member of the bucket its
    [ExpireBucket] field names. *)
Definition in_own_bucket (c : LRU) (k : string) (e : positive) : Prop :=
  ∃ it b, heap c !! e = Some it ∧
          buckets c !! Z.to_nat (ExpireBucket it) = Some b ∧
          entries b !! k = Some e.

Record wf_core (c : LRU) : Prop := {
  wf_buckets_len : length (buckets c) = Z.to_nat numBuckets;
  wf_cursor : 0 ≤ nextCleanupBucket c < numBuckets;
  wf_queue_nodup : NoDup (queue c);
  wf_items : ∀ k e, items c !! k = Some e →
      e ∈ queue c ∧ ∃ it, heap c !! e = Some it ∧ Key it = k;
  wf_queue : ∀ e, e ∈ queue c →
      ∃ it, heap c !! e = Some it ∧ items c !! Key it = Some e;
  wf_entries : ∀ i b k e, buckets c !! i = Some b → entries b !! k = Some e →
      items c !! k = Some e ∧
      ∃ it, heap c !! e = Some it ∧ ExpireBucket it = Z.of_nat i ∧
            ExpiresAt it ≤ newestEntry b
}.

(** The invariant between two methods. *)
Definition wf (c : LRU) : Prop :=
  wf_core c ∧ ∀ k e, items c !! k = Some e → in_own_bucket c k e.

(** The invariant inside [Add], while the entry of [key] is in no bucket. *)
Definition wf_pending (key : string) (c : LRU) : Prop :=
  wf_core c ∧
  (∀ k e, k ≠ key → items c !! k = Some e → in_own_bucket c k e) ∧
  (∀ i b, buckets c !! i = Some b → entries b !! key = None).

(** ** States left by the primitives *)

(** The state [removeElement e] leaves when [e] is the entry of [k] and sits
    in bucket [b]. *)
Definition removed (k : string) (e : positive) (it : Item) (b : bucket)
    (c : LRU) : LRU :=
  set_buckets
    (<[Z.to_nat (ExpireBucket it) :=
         mkBucket (delete k (entries b)) (newestEntry b)]> (buckets c))
    (set_items (delete k (items c))
       (set_queue (clist.Remove e (queue c)) c)).

(** The state [addToBucket e] leaves when the cell of [e] holds [it] and the
    bucket behind the cursor is [b]. *)
Definition added (e : positive) (it : Item) (b : bucket) (c : LRU) : LRU :=
  set_buckets
    (<[Z.to_nat (bucketId c) :=
         mkBucket (<[Key it := e]> (entries b))
           (if time.Before (newestEntry b) (ExpiresAt it) then ExpiresAt it
            else newestEntry b)]> (buckets c))
    (set_heap
       (<[e := mkItem (Key it) (Value it) (ExpiresAt it) (bucketId c)]>
          (heap c)) c).

(** The state of the update path of [Add] before its [addToBucket]: the
    entry [e] of [key], whose cell held [it], moved to the front, taken out
    of its bucket [b0] and rewritten. *)
Definition refreshed (key : string) (value : any) (now : Z) (e : positive)
    (it : Item) (b0 : bucket) (c : LRU) : LRU :=
  set_heap
    (<[e := mkItem key value (time.Add now (ttl c)) (ExpireBucket it)]>
       (heap c))
    (set_buckets
       (<[Z.to_nat (ExpireBucket it) :=
            mkBucket (delete key (entries b0)) (newestEntry b0)]> (buckets c))
       (set_queue (clist.MoveToFront e (queue c)) c)).

(** The state of the insert path of [Add] before its [addToBucket]: a new
    cell at [e], pushed to the front and registered under [key]. *)
Definition inserted (key : string) (value : any) (now : Z) (e : positive)
    (c : LRU) : LRU :=
  set_items (<[key := e]> (items c))
    (set_queue (clist.PushFront e (queue c))
       (set_heap
          (<[e := mkItem key value (time.Add now (ttl c)) 0]> (heap c)) c)).

(** ** Bucket timestamps *)

(** [newestEntry] of every non-empty bucket is the largest [ExpiresAt] among
    its members: it bounds them all and one of them attains it. *)
Definition newest_is_max (c : LRU) : Prop :=
  ∀ i b, buckets c !! i = Some b → entries b ≠ ∅ →
    (∀ k e it, entries b !! k = Some e → heap c !! e = Some it →
               ExpiresAt it ≤ newestEntry b) ∧
    (∃ k e it, entries b !! k = Some e ∧ heap c !! e = Some it ∧
               ExpiresAt it = newestEntry b).

(** [newestEntry] of every bucket is at least the [ExpiresAt] of each of its
    members. *)
Definition newest_bounds (c : LRU) : Prop :=
  ∀ i b k e it, buckets c !! i = Some b → entries b !! k = Some e →
                heap c !! e = Some it → ExpiresAt it ≤ newestEntry b.

(** Bucket by bucket, the [newestEntry] of [bs'] is at least that of [bs]. *)
Definition newest_le (bs bs' : list bucket) : Prop :=
  Forall2 (λ b b', newestEntry b ≤ newestEntry b') bs bs'.

(** ** Example executions *)

(** Capacity 2, TTL 5: [Add(A,1)] at instant 10, [Add(B,2)] at instant 20. *)
Definition demo_calls : list (op * Z) :=
  [(OpAdd "A" (IntVal 1), 10); (OpAdd "B" (IntVal 2), 20)].

Definition demo : LRU := default (NewLRU 2 5) (run demo_calls (NewLRU 2 5)).

(** The same, followed by [Remove(B)]. *)
Definition demo_removed : LRU :=
  default (NewLRU 2 5) (run (demo_calls ++ [(OpRemove "B", 21)]) (NewLRU 2 5)).

(** [n] runs of [deleteExpired], each finding the clock at [now]. *)
Fixpoint sweeps (n : nat) (now : Z) (c : LRU) : option LRU :=
  match n with
  | O => Some c
  | S n' => c' ← deleteExpired now c; sweeps n' now c'
  end.

(** [demo] after 99 sweeps at instant 100: the cursor is on bucket 99, the
    bucket of [A] and [B]. *)
Definition demo_swept : LRU := default demo (sweeps 99 100 demo).

(** * Package [simple]

    The cache without TTL and without mutex of [simple/simple.go], on the
    same model of [container/list] and of the cells.  The method [Set] is
    [Set_] here, [Set] being a sort of Rocq. *)
Module simple.

Record Item : Type := mkItem {
  Key : string;
  Value : any
}.

Record LRU : Type := mkLRU {
  cap : Z;
  items : gmap string positive;
  queue : list positive;
  heap : gmap positive Item
}.

Definition NewLru (cap : Z) : LRU := mkLRU cap ∅ [] ∅.

Definition purge (c : LRU) : option LRU :=
  match clist.Back (queue c) with
  | Some element =>
      item ← heap c !! element;
      Some (mkLRU (cap c) (delete (Key item) (items c))
              (clist.Remove element (queue c)) (heap c))
  | None => Some c
  end.

Definition Set_ (key : string) (value : any) (c : LRU) : option LRU :=
  match items c !! key with
  | Some element =>
      item ← heap c !! element;
      Some (mkLRU (cap c) (items c) (clist.MoveToFront element (queue c))
              (<[element := mkItem (Key item) value]> (heap c)))
  | None =>
      c1 ← (if Z.of_nat (length (queue c)) =? cap c
            then purge c else Some c);
      let element := fresh (dom (heap c1)) in
      Some (mkLRU (cap c1) (<[key := element]> (items c1))
              (clist.PushFront element (queue c1))
              (<[element := mkItem key value]> (heap c1)))
  end.

Definition Get (key : string) (c : LRU) : option (any * LRU) :=
  match items c !! key with
  | None => Some (nil, c)
  | Some element =>
      item ← heap c !! element;
      Some (Value item,
            mkLRU (cap c) (items c) (clist.MoveToFront element (queue c))
              (heap c))
  end.

(** A sequence of [Set]s: key and value of each. *)
Fixpoint run_sets (l : list (string * any)) (c : LRU) : option LRU :=
  match l with
  | [] => Some c
  | (key, value) :: l' => c' ← Set_ key value c; run_sets l' c'
  end.

End simple.

(** The states of a [simple] cache: built by [NewLru], changed by [Set] and
    [Get]. *)
Inductive simple_reachable : simple.LRU → Prop :=
  | simple_reachable_NewLru cap : simple_reachable (simple.NewLru cap)
  | simple_reachable_Set c key value c' :
      simple_reachable c → simple.Set_ key value c = Some c' →
      simple_reachable c'
  | simple_reachable_Get c key r c' :
      simple_reachable c → simple.Get key c = Some (r, c') →
      simple_reachable c'.

(** Representation invariant of a [simple] cache. *)
Definition simple_wf (c : simple.LRU) : Prop :=
  NoDup (simple.queue c) ∧
  (∀ k e, simple.items c !! k = Some e →
          e ∈ simple.queue c ∧
          ∃ it, simple.heap c !! e = Some it ∧ simple.Key it = k) ∧
  (∀ e, e ∈ simple.queue c →
        ∃ it, simple.heap c !! e = Some it ∧
              simple.items c !! simple.Key it = Some e).

(** What a [ttl] cache and a [simple] cache have in common: the capacity,
    the Key Index, the recency queue, and the key and value of each cell. *)
Definition forget (c : LRU) : simple.LRU :=
  simple.mkLRU (cap c) (items c) (queue c)
    ((λ it, simple.mkItem (Key it) (Value it)) <$> heap c).

(** [Set(A,1); Set(B,2)] on a [simple] cache of capacity 2. *)
Definition simple_demo : simple.LRU :=
  default (simple.NewLru 2)
    (simple.run_sets [("A"%string, IntVal 1); ("B"%string, IntVal 2)]
       (simple.NewLru 2)).

(** * Properties *)

(** ** container/list *)

Lemma elem_of_Remove (e x : positive) (l : list positive) :
  x ∈ clist.Remove e l ↔ x ∈ l ∧ x ≠ e.
Proof. unfold clist.Remove. rewrite list_elem_of_filter. tauto. Qed.

Lemma NoDup_Remove (e : positive) (l : list positive) :
  NoDup l → NoDup (clist.Remove e l).
Proof. apply NoDup_filter. Qed.

Lemma Remove_not_elem (e : positive) (l : list positive) :
  e ∉ l → clist.Remove e l = l.
Proof.
  unfold clist.Remove. induction l as [|x l IH]; [done|].
  rewrite not_elem_of_cons. intros [Hne Hl].
  rewrite filter_cons_True by congruence. by rewrite IH.
Qed.

Lemma Remove_back (e : positive) (q : list positive) :
  NoDup (q ++ [e]) → clist.Remove e (q ++ [e]) = q.
Proof.
  intros [Hq [Hd _]]%NoDup_app. unfold clist.Remove.
  rewrite filter_app, filter_cons_False, filter_nil, app_nil_r by (intros H; by apply H).
  apply Remove_not_elem. intros Hin. apply (Hd e Hin). by left.
Qed.

Lemma elem_of_MoveToFront (e x : positive) (l : list positive) :
  x ∈ clist.MoveToFront e l ↔ x ∈ l.
Proof.
  unfold clist.MoveToFront. case_decide as He; [|done].
  rewrite elem_of_cons, list_elem_of_filter.
  destruct (decide (x = e)) as [->|Hne]; [tauto|].
  split; [intros [?|[_ ?]]; done|auto].
Qed.

Lemma NoDup_MoveToFront (e : positive) (l : list positive) :
  NoDup l → NoDup (clist.MoveToFront e l).
Proof.
  intros Hl. unfold clist.MoveToFront. case_decide; [|done].
  apply NoDup_cons. split; [|by apply NoDup_filter].
  rewrite list_elem_of_filter. intros [Hne _]. by apply Hne.
Qed.

Lemma MoveToFront_elem (e : positive) (l : list positive) :
  e ∈ l → clist.MoveToFront e l = e :: clist.Remove e l.
Proof. intros. unfold clist.MoveToFront. by rewrite decide_True. Qed.

Lemma Back_snoc (e : positive) (q : list positive) :
  clist.Back (q ++ [e]) = Some e.
Proof. apply last_snoc. Qed.

Lemma Back_Some (e : positive) (l : list positive) :
  clist.Back l = Some e → ∃ q, l = q ++ [e].
Proof.
  unfold clist.Back. destruct l as [|x l] using rev_ind; [done|].
  rewrite last_snoc. intros [= ->]. eauto.
Qed.

Lemma Back_None (l : list positive) : clist.Back l = None → l = [].
Proof. apply last_None. Qed.

(** ** Inversion of the bucket primitives *)

Lemma removeFromBucket_Some (e : positive) (c c' : LRU) :
  removeFromBucket e c = Some c' →
  ∃ it b, heap c !! e = Some it ∧
          buckets c !! Z.to_nat (ExpireBucket it) = Some b ∧
          c' = set_buckets
                 (<[Z.to_nat (ExpireBucket it) :=
                      mkBucket (delete (Key it) (entries b)) (newestEntry b)]>
                    (buckets c)) c.
Proof.
  unfold removeFromBucket. intros H.
  destruct (heap c !! e) as [it|] eqn:Hit; simpl in H; [|done].
  destruct (buckets c !! Z.to_nat (ExpireBucket it)) as [b|] eqn:Hb;
    simpl in H; [|done].
  injection H as <-. eauto.
Qed.

Lemma bucketId_wf (c : LRU) :
  0 ≤ nextCleanupBucket c < numBuckets →
  bucketId c = (nextCleanupBucket c - 1 + numBuckets) mod numBuckets ∧
  0 ≤ bucketId c < numBuckets.
Proof.
  unfold bucketId, uint8, numBuckets. intros H.
  rewrite (Z.mod_small (100 + _) 256) by lia.
  rewrite (Z.mod_small (100 + _ - 1) 256) by lia.
  split; [f_equal; lia|]. apply Z.mod_pos_bound. lia.
Qed.

(** ** The invariant only reads the queue as a duplicate-free set *)

Lemma wf_core_set_queue (q : list positive) (c : LRU) :
  NoDup q → (∀ x, x ∈ q ↔ x ∈ queue c) →
  wf_core c → wf_core (set_queue q c).
Proof.
  intros Hnd Hq [H1 H2 H3 H4 H5 H6]. split; simpl; try done.
  - intros k e Hk. destruct (H4 k e Hk) as [? ?]. split; [by apply Hq|done].
  - intros e He. apply H5. by apply Hq.
Qed.

Lemma wf_set_queue (q : list positive) (c : LRU) :
  NoDup q → (∀ x, x ∈ q ↔ x ∈ queue c) → wf c → wf (set_queue q c).
Proof.
  intros Hnd Hq [Hc Hm]. split; [by apply wf_core_set_queue|done].
Qed.

Lemma wf_MoveToFront (e : positive) (c : LRU) :
  wf c → wf (set_queue (clist.MoveToFront e (queue c)) c).
Proof.
  intros Hwf. apply wf_set_queue; [|intros x; apply elem_of_MoveToFront|done].
  apply NoDup_MoveToFront, Hwf.
Qed.

(** Two keys of the Key Index never share an entry. *)
Lemma wf_items_inj (c : LRU) (k1 k2 : string) (e : positive) :
  wf_core c → items c !! k1 = Some e → items c !! k2 = Some e → k1 = k2.
Proof.
  intros Hc H1 H2.
  destruct (wf_items c Hc k1 e H1) as [_ (it1 & Hh1 & <-)].
  destruct (wf_items c Hc k2 e H2) as [_ (it2 & Hh2 & <-)].
  congruence.
Qed.

(** ** Steps of the invariant *)

Lemma lookup_buckets_insert (bs : list bucket) (n i : nat) (b b' : bucket) :
  <[n := b']> bs !! i = Some b →
  (i = n ∧ b = b') ∨ (i ≠ n ∧ bs !! i = Some b).
Proof.
  rewrite list_lookup_insert_Some. intros [(-> & -> & _)|[? ?]]; auto.
Qed.

(** Taking the entry of [k] out of its bucket leaves [k] pending. *)
Lemma wf_removeFromBucket (k : string) (e : positive) (c : LRU) :
  wf c → items c !! k = Some e →
  ∃ it b, heap c !! e = Some it ∧ Key it = k ∧
          buckets c !! Z.to_nat (ExpireBucket it) = Some b ∧
          entries b !! k = Some e ∧
          let c' := set_buckets
                      (<[Z.to_nat (ExpireBucket it) :=
                           mkBucket (delete k (entries b)) (newestEntry b)]>
                         (buckets c)) c in
          removeFromBucket e c = Some c' ∧ wf_pending k c'.
Proof.
  intros [Hc Hm] Hk.
  destruct (Hm k e Hk) as (it & b & Hit & Hb & Hbk).
  destruct (wf_items c Hc k e Hk) as [Hq (it' & Hit' & HK)].
  assert (it' = it) as -> by congruence.
  exists it, b. split_and!; try done.
  intros c'. split.
  { unfold removeFromBucket. rewrite Hit. simpl. rewrite Hb. simpl. by rewrite HK. }
  destruct Hc as [H1 H2 H3 H4 H5 H6].
  split; [split|split]; simpl; try done.
  - by rewrite length_insert.
  - intros i b' k' e' [[-> ->]|[Hne Hb']]%lookup_buckets_insert; simpl.
    + intros [Hkk Hl]%lookup_delete_Some.
      destruct (H6 _ _ _ _ Hb Hl) as [? (it2 & ? & ? & ?)]. eauto 6.
    + intros Hl. destruct (H6 _ _ _ _ Hb' Hl) as [? (it2 & ? & ? & ?)]. eauto 6.
  - intros k' e' Hkk Hk'.
    destruct (Hm k' e' Hk') as (it2 & b2 & Hit2 & Hb2 & Hbk2).
    exists it2.
    destruct (decide (Z.to_nat (ExpireBucket it2) = Z.to_nat (ExpireBucket it)))
      as [Heq|Hne].
    + rewrite Heq in *. assert (b2 = b) as -> by congruence.
      eexists. split; [done|]. split.
      * apply list_lookup_insert_eq. by apply lookup_lt_Some in Hb.
      * simpl. by rewrite lookup_delete_ne.
    + exists b2. split; [done|]. split; [|done].
      simpl. by rewrite list_lookup_insert_ne.
  - intros i b' [[-> ->]|[Hne Hb']]%lookup_buckets_insert; simpl.
    + apply lookup_delete_eq.
    + destruct (entries b' !! k) as [e'|] eqn:Hl; [|done].
      destruct (H6 _ _ _ _ Hb' Hl) as [Hi (it2 & Hit2 & Hx & _)].
      assert (e' = e) as -> by congruence.
      assert (it2 = it) as -> by congruence.
      rewrite Hx in Hne. rewrite Nat2Z.id in Hne. done.
Qed.

(** Unlinking a pending entry from the queue and the Key Index. *)
Lemma wf_unlink (k : string) (e : positive) (c : LRU) :
  wf_pending k c → items c !! k = Some e →
  wf (set_items (delete k (items c))
        (set_queue (clist.Remove e (queue c)) c)).
Proof.
  intros ([H1 H2 H3 H4 H5 H6] & Hm & Hp) Hk.
  assert (Hinj : ∀ k', items c !! k' = Some e → k' = k).
  { intros k' Hk'. destruct (H4 _ _ Hk') as [_ (it1 & ? & <-)].
    destruct (H4 _ _ Hk) as [_ (it2 & ? & <-)]. congruence. }
  split; [split|]; simpl; try done.
  - by apply NoDup_Remove.
  - intros k' e' [Hne Hk']%lookup_delete_Some.
    destruct (H4 _ _ Hk') as [Hq Hit]. split; [|done].
    apply elem_of_Remove. split; [done|]. intros ->. by apply Hne, eq_sym, Hinj.
  - intros e' [Hq Hne]%elem_of_Remove.
    destruct (H5 _ Hq) as (it & Hit & Hi). exists it. split; [done|].
    rewrite lookup_delete_ne; [done|]. intros Heq. rewrite <- Heq in Hi. congruence.
  - intros i b k' e' Hb Hl.
    destruct (H6 _ _ _ _ Hb Hl) as [Hi Hit]. split; [|done].
    rewrite lookup_delete_ne; [done|]. intros <-. rewrite (Hp _ _ Hb) in Hl. done.
  - intros k' e' [Hne Hk']%lookup_delete_Some. apply Hm; [congruence|done].
Qed.

(** Rewriting the cell of a pending entry, its key kept. *)
Lemma wf_pending_set_heap (k : string) (e : positive) (it' : Item) (c : LRU) :
  wf_pending k c → items c !! k = Some e → Key it' = k →
  wf_pending k (set_heap (<[e := it']> (heap c)) c).
Proof.
  intros ([H1 H2 H3 H4 H5 H6] & Hm & Hp) Hk HK.
  assert (Hinj : ∀ k', items c !! k' = Some e → k' = k).
  { intros k' Hk'. destruct (H4 _ _ Hk') as [_ (it1 & ? & <-)].
    destruct (H4 _ _ Hk) as [_ (it2 & ? & <-)]. congruence. }
  split; [split|split]; simpl; try done.
  - intros k' e' Hk'. destruct (H4 _ _ Hk') as [Hq (it & Hit & HKi)].
    split; [done|]. destruct (decide (e' = e)) as [->|Hne].
    + exists it'. rewrite lookup_insert_eq. split; [done|].
      rewrite HK. by apply eq_sym, Hinj.
    + exists it. by rewrite lookup_insert_ne.
  - intros e' Hq. destruct (H5 _ Hq) as (it & Hit & Hi).
    destruct (decide (e' = e)) as [->|Hne].
    + exists it'. rewrite lookup_insert_eq. split; [done|]. by rewrite HK.
    + exists it. by rewrite lookup_insert_ne.
  - intros i b k' e' Hb Hl.
    destruct (H6 _ _ _ _ Hb Hl) as [Hi (it & Hit & Hx)]. split; [done|].
    exists it. rewrite lookup_insert_ne; [done|].
    intros <-. apply Hinj in Hi as ->. rewrite (Hp _ _ Hb) in Hl. done.
  - intros k' e' Hne Hk'.
    destruct (Hm _ _ Hne Hk') as (it & b & Hit & Hb & Hl).
    exists it, b. simpl. rewrite lookup_insert_ne; [done|].
    intros <-. by apply Hne, Hinj.
Qed.

(** Putting a pending entry into the bucket behind the cursor. *)
Lemma wf_addToBucket (k : string) (e : positive) (it : Item) (c : LRU) :
  wf_pending k c → items c !! k = Some e → heap c !! e = Some it →
  ∃ b, buckets c !! Z.to_nat (bucketId c) = Some b ∧
       let it' := mkItem k (Value it) (ExpiresAt it) (bucketId c) in
       let newest :=
         if time.Before (newestEntry b) (ExpiresAt it) then ExpiresAt it
         else newestEntry b in
       let c' := set_buckets
                   (<[Z.to_nat (bucketId c) :=
                        mkBucket (<[k := e]> (entries b)) newest]> (buckets c))
                   (set_heap (<[e := it']> (heap c)) c) in
       addToBucket e c = Some c' ∧ wf c'.
Proof.
  intros ([H1 H2 H3 H4 H5 H6] & Hm & Hp) Hk Hit.
  assert (Hinj : ∀ k', items c !! k' = Some e → k' = k).
  { intros k' Hk'. destruct (H4 _ _ Hk') as [_ (it1 & ? & <-)].
    destruct (H4 _ _ Hk) as [_ (it2 & ? & <-)]. congruence. }
  assert (HK : Key it = k).
  { destruct (H4 _ _ Hk) as [_ (it2 & ? & <-)]. congruence. }
  destruct (bucketId_wf c H2) as [_ Hid].
  destruct (lookup_lt_is_Some_2 (buckets c) (Z.to_nat (bucketId c)))
    as [b Hb]; [rewrite H1; lia|].
  exists b. split; [done|]. intros it' newest c'. split.
  { unfold addToBucket. rewrite Hit. simpl. rewrite Hb. simpl. by rewrite HK. }
  assert (Hnew : newestEntry b ≤ newest ∧ ExpiresAt it ≤ newest).
  { unfold newest, time.Before.
    destruct (Z.ltb_spec (newestEntry b) (ExpiresAt it)); lia. }
  split; [split|]; simpl; try done.
  - by rewrite length_insert.
  - intros k' e' Hk'. destruct (H4 _ _ Hk') as [Hq (it2 & Hit2 & HK2)].
    split; [done|]. destruct (decide (e' = e)) as [->|Hne].
    + exists it'. rewrite lookup_insert_eq. split; [done|].
      by apply eq_sym, Hinj.
    + exists it2. by rewrite lookup_insert_ne.
  - intros e' Hq. destruct (H5 _ Hq) as (it2 & Hit2 & Hi).
    destruct (decide (e' = e)) as [->|Hne].
    + exists it'. by rewrite lookup_insert_eq.
    + exists it2. by rewrite lookup_insert_ne.
  - intros i b' k' e' [[-> ->]|[Hne Hb']]%lookup_buckets_insert; simpl.
    + intros [[<- <-]|[Hkk Hl]]%lookup_insert_Some.
      * split; [done|]. exists it'. rewrite lookup_insert_eq.
        split_and!; [done|simpl; lia|simpl; lia].
      * destruct (H6 _ _ _ _ Hb Hl) as [Hi (it2 & Hit2 & Hx & Hle)].
        split; [done|]. exists it2. rewrite lookup_insert_ne.
        { split_and!; [done|done|lia]. }
        intros <-. by apply Hkk, eq_sym, Hinj.
    + intros Hl. destruct (H6 _ _ _ _ Hb' Hl) as [Hi (it2 & Hit2 & Hx)].
      split; [done|]. exists it2. rewrite lookup_insert_ne; [done|].
      intros <-. apply Hinj in Hi as ->. rewrite (Hp _ _ Hb') in Hl. done.
  - intros k' e' Hk'. destruct (decide (k' = k)) as [->|Hne].
    + assert (e' = e) as -> by congruence.
      exists it'. eexists. simpl. rewrite lookup_insert_eq. split; [done|].
      split; [apply list_lookup_insert_eq; by apply lookup_lt_Some in Hb|].
      simpl. by rewrite lookup_insert_eq.
    + destruct (Hm _ _ Hne Hk') as (it2 & b2 & Hit2 & Hb2 & Hl).
      assert (e' ≠ e) by (intros ->; by apply Hne, Hinj).
      exists it2. simpl. rewrite lookup_insert_ne by done.
      destruct (decide (Z.to_nat (ExpireBucket it2) = Z.to_nat (bucketId c)))
        as [Heq|Hneq].
      * rewrite Heq in *. assert (b2 = b) as -> by congruence.
        eexists. split; [done|].
        split; [apply list_lookup_insert_eq; by apply lookup_lt_Some in Hb|].
        simpl. by rewrite lookup_insert_ne.
      * exists b2. by rewrite list_lookup_insert_ne.
Qed.

(** Linking a freshly allocated entry into the queue and the Key Index. *)
Lemma wf_link (k : string) (e : positive) (it : Item) (c : LRU) :
  wf c → items c !! k = None → heap c !! e = None → Key it = k →
  wf_pending k
    (set_items (<[k := e]> (items c))
       (set_queue (clist.PushFront e (queue c))
          (set_heap (<[e := it]> (heap c)) c))).
Proof.
  intros [[H1 H2 H3 H4 H5 H6] Hm] Hk He HK.
  assert (Hnq : e ∉ queue c).
  { intros Hq. destruct (H5 _ Hq) as (? & ? & _). congruence. }
  assert (Hp : ∀ i b, buckets c !! i = Some b → entries b !! k = None).
  { intros i b Hb. destruct (entries b !! k) as [e'|] eqn:Hl; [|done].
    destruct (H6 _ _ _ _ Hb Hl) as [? _]. congruence. }
  unfold clist.PushFront.
  split; [split|split]; simpl; try done.
  - by apply NoDup_cons.
  - intros k' e' [[<- <-]|[Hne Hk']]%lookup_insert_Some.
    + split; [by left|]. exists it. by rewrite lookup_insert_eq.
    + destruct (H4 _ _ Hk') as [Hq (it2 & Hit2 & HK2)].
      split; [by right|]. exists it2. rewrite lookup_insert_ne; [done|].
      intros <-. done.
  - intros e' [->|Hq]%elem_of_cons.
    + exists it. rewrite lookup_insert_eq. split; [done|].
      rewrite HK. by rewrite lookup_insert_eq.
    + destruct (H5 _ Hq) as (it2 & Hit2 & Hi). exists it2.
      rewrite lookup_insert_ne by (intros <-; done). split; [done|].
      rewrite lookup_insert_ne; [done|]. intros Heq. congruence.
  - intros i b k' e' Hb Hl.
    destruct (H6 _ _ _ _ Hb Hl) as [Hi (it2 & Hit2 & Hx)].
    assert (k' ≠ k) by congruence.
    rewrite lookup_insert_ne by done. split; [done|].
    exists it2. rewrite lookup_insert_ne; [done|]. intros <-. congruence.
  - intros k' e' Hne Hk'. rewrite lookup_insert_ne in Hk' by done.
    destruct (Hm _ _ Hk') as (it2 & b2 & Hit2 & Hb2 & Hl).
    exists it2, b2. simpl. rewrite lookup_insert_ne; [done|].
    intros <-. congruence.
Qed.

Lemma wf_NewLRU (cap ttl : Z) : wf (NewLRU cap ttl).
Proof.
  split; [split|]; unfold NewLRU; cbn [buckets queue items heap nextCleanupBucket].
  - by rewrite length_replicate.
  - done.
  - apply NoDup_nil_2.
  - intros k e Hk. by rewrite lookup_empty in Hk.
  - intros e He. by apply elem_of_nil in He.
  - intros i b k e [-> _]%lookup_replicate. done.
  - intros k e Hk. by rewrite lookup_empty in Hk.
Qed.

(** [removeElement] on a live entry: no panic, the resulting state, and the
    invariant. *)
Lemma wf_removeElement (k : string) (e : positive) (c : LRU) :
  wf c → items c !! k = Some e →
  ∃ it b, heap c !! e = Some it ∧ Key it = k ∧
          buckets c !! Z.to_nat (ExpireBucket it) = Some b ∧
          entries b !! k = Some e ∧
          let c' := set_buckets
                      (<[Z.to_nat (ExpireBucket it) :=
                           mkBucket (delete k (entries b)) (newestEntry b)]>
                         (buckets c))
                      (set_items (delete k (items c))
                         (set_queue (clist.Remove e (queue c)) c)) in
          removeElement e c = Some c' ∧ wf c'.
Proof.
  intros Hwf Hk.
  destruct (wf_removeFromBucket k e c Hwf Hk)
    as (it & b & Hit & HK & Hb & Hl & Hr & Hp).
  exists it, b. split_and!; try done. intros c'. split.
  - unfold removeElement. rewrite Hit. simpl.
    unfold removeFromBucket. simpl. rewrite Hit. simpl. rewrite Hb. simpl.
    by rewrite HK.
  - by apply (wf_unlink k e _ Hp).
Qed.

(** ** The methods keep the invariant and do not panic *)

Lemma removeOldest_spec (c : LRU) :
  wf c →
  (queue c = [] ∧ removeOldest c = Some c) ∨
  (∃ q e it b,
      queue c = q ++ [e] ∧ heap c !! e = Some it ∧
      items c !! Key it = Some e ∧
      buckets c !! Z.to_nat (ExpireBucket it) = Some b ∧
      entries b !! Key it = Some e ∧
      removeOldest c = Some (removed (Key it) e it b c) ∧
      wf (removed (Key it) e it b c)).
Proof.
  intros Hwf. unfold removeOldest.
  destruct (clist.Back (queue c)) as [e|] eqn:HB.
  - right. destruct (Back_Some _ _ HB) as [q Hq].
    destruct (wf_queue c (proj1 Hwf) e) as (it & Hit & Hi).
    { rewrite Hq. apply elem_of_app. right. by left. }
    destruct (wf_removeElement _ _ _ Hwf Hi)
      as (it' & b & Hit' & HK & Hb & Hl & Hr & Hwf').
    assert (it' = it) as -> by congruence.
    exists q, e, it, b. split_and!; done.
  - left. split; [by apply Back_None|done].
Qed.

Lemma wf_core_buckets_lookup (c : LRU) :
  wf_core c → ∃ b, buckets c !! Z.to_nat (bucketId c) = Some b.
Proof.
  intros Hc. destruct (bucketId_wf c (wf_cursor c Hc)) as [_ Hid].
  apply lookup_lt_is_Some_2. rewrite (wf_buckets_len c Hc). lia.
Qed.

Lemma Add_update_spec (key : string) (value : any) (now : Z) (e : positive)
    (c : LRU) :
  wf c → items c !! key = Some e →
  ∃ it b0 b,
    heap c !! e = Some it ∧ Key it = key ∧
    buckets c !! Z.to_nat (ExpireBucket it) = Some b0 ∧
    entries b0 !! key = Some e ∧
    let c3 := refreshed key value now e it b0 c in
    let it3 := mkItem key value (time.Add now (ttl c)) (ExpireBucket it) in
    buckets c3 !! Z.to_nat (bucketId c) = Some b ∧
    Add key value now c = Some (added e it3 b c3) ∧
    wf (added e it3 b c3).
Proof.
  intros Hwf Hk.
  pose proof (wf_MoveToFront e c Hwf) as Hwf1.
  destruct (wf_removeFromBucket key e _ Hwf1 Hk)
    as (it & b0 & Hit & HK & Hb0 & Hl & Hr & Hp).
  simpl in Hit, Hb0, Hr, Hp.
  set (it3 := mkItem key value (time.Add now (ttl c)) (ExpireBucket it)).
  pose proof (wf_pending_set_heap key e it3 _ Hp Hk eq_refl) as Hp3.
  destruct (wf_addToBucket key e it3 _ Hp3 Hk) as (b & Hb & Ha & Hwf').
  { simpl. by rewrite lookup_insert_eq. }
  exists it, b0, b. split_and!; try done.
  intros c3 it3'. split_and!; try done.
  unfold Add. rewrite Hk. simpl. rewrite Hr. simpl. rewrite Hit. simpl.
  rewrite HK. exact Ha.
Qed.

Lemma Add_insert_spec (key : string) (value : any) (now : Z) (c : LRU) :
  wf c → items c !! key = None →
  ∃ c1 b,
    (if Z.of_nat (size (items c)) =? cap c then removeOldest c else Some c)
      = Some c1 ∧
    wf c1 ∧ items c1 !! key = None ∧
    let e := fresh (dom (heap c1)) in
    let it := mkItem key value (time.Add now (ttl c1)) 0 in
    let c4 := inserted key value now e c1 in
    heap c1 !! e = None ∧
    buckets c4 !! Z.to_nat (bucketId c1) = Some b ∧
    Add key value now c = Some (added e it b c4) ∧
    wf (added e it b c4).
Proof.
  intros Hwf Hk.
  assert (∃ c1, (if Z.of_nat (size (items c)) =? cap c
                 then removeOldest c else Some c) = Some c1 ∧
                wf c1 ∧ items c1 !! key = None) as (c1 & Hc1 & Hwf1 & Hk1).
  { destruct (Z.of_nat (size (items c)) =? cap c); [|eauto].
    destruct (removeOldest_spec c Hwf)
      as [[_ Hr]|(q & e & it & b & _ & _ & _ & _ & _ & Hr & Hwf')]; [eauto|].
    eexists. split_and!; [done|done|]. simpl.
    rewrite lookup_delete_None. by right. }
  set (e := fresh (dom (heap c1))).
  assert (He : heap c1 !! e = None).
  { apply not_elem_of_dom. apply is_fresh. }
  set (it := mkItem key value (time.Add now (ttl c1)) 0).
  pose proof (wf_link key e it c1 Hwf1 Hk1 He eq_refl) as Hp.
  destruct (wf_addToBucket key e it _ Hp) as (b & Hb & Ha & Hwf').
  { simpl. by rewrite lookup_insert_eq. }
  { simpl. by rewrite lookup_insert_eq. }
  exists c1, b. split_and!; try done.
  intros e' it' c4. split_and!; try done.
  unfold Add. rewrite Hk, Hc1. simpl. exact Ha.
Qed.

Lemma Get_spec (key : string) (now : Z) (c : LRU) :
  wf c →
  (items c !! key = None ∧ Get key now c = Some (nil, false, c)) ∨
  (∃ e it,
      items c !! key = Some e ∧ heap c !! e = Some it ∧ Key it = key ∧
      e ∈ queue c ∧
      Get key now c =
        if time.After now (ExpiresAt it) then Some (nil, false, c)
        else Some (Value it, true,
                   set_queue (clist.MoveToFront e (queue c)) c)).
Proof.
  intros [Hc _]. unfold Get. destruct (items c !! key) as [e|] eqn:Hk.
  - right. destruct (wf_items c Hc key e Hk) as [Hq (it & Hit & HK)].
    exists e, it. rewrite Hit. done.
  - by left.
Qed.

Lemma wf_Get (key : string) (now : Z) (c : LRU) :
  wf c → ∃ r, Get key now c = Some r ∧ wf r.2.
Proof.
  intros Hwf.
  destruct (Get_spec key now c Hwf)
    as [[_ ->]|(e & it & _ & _ & _ & _ & ->)]; [eauto|].
  destruct (time.After now (ExpiresAt it)); eexists; (split; [done|]); simpl;
    [done|by apply wf_MoveToFront].
Qed.

Lemma Remove_spec (key : string) (c : LRU) :
  wf c →
  (items c !! key = None ∧ Remove key c = Some (false, c)) ∨
  (∃ e it b,
      items c !! key = Some e ∧ heap c !! e = Some it ∧ Key it = key ∧
      buckets c !! Z.to_nat (ExpireBucket it) = Some b ∧
      entries b !! key = Some e ∧
      Remove key c = Some (true, removed key e it b c) ∧
      wf (removed key e it b c)).
Proof.
  intros Hwf. unfold Remove. destruct (items c !! key) as [e|] eqn:Hk.
  - right. destruct (wf_removeElement _ _ _ Hwf Hk)
      as (it & b & Hit & HK & Hb & Hl & Hr & Hwf').
    exists e, it, b. rewrite Hr. done.
  - by left.
Qed.

Lemma RemoveOldest_spec (c : LRU) :
  wf c →
  (queue c = [] ∧ RemoveOldest c = Some (EmptyString, nil, false, c)) ∨
  (∃ q e it b,
      queue c = q ++ [e] ∧ heap c !! e = Some it ∧
      items c !! Key it = Some e ∧
      buckets c !! Z.to_nat (ExpireBucket it) = Some b ∧
      entries b !! Key it = Some e ∧
      RemoveOldest c = Some (Key it, Value it, true, removed (Key it) e it b c) ∧
      wf (removed (Key it) e it b c)).
Proof.
  intros Hwf. pose proof (removeOldest_spec c Hwf) as Hs.
  unfold removeOldest in Hs. unfold RemoveOldest.
  destruct Hs as [[Hq Hr]|(q & e & it & b & Hq & Hit & Hi & Hb & Hl & Hr & Hwf')].
  - left. rewrite Hq. done.
  - right. exists q, e, it, b. rewrite Hq, Back_snoc in Hr |- *.
    rewrite Hr. simpl. rewrite Hit. done.
Qed.

(** ** Range loops *)

(** The loop of [Purge] over the Key Index empties it, whatever the order of
    the enumeration. *)
Lemma Purge_items_empty (l : list (string * positive))
    (m : gmap string positive) :
  (∀ k e, m !! k = Some e → k ∈ l.*1) → Purge_items l m = ∅.
Proof.
  revert m. induction l as [|[k e] l IH]; intros m Hm; simpl.
  - apply map_empty. intros k. destruct (m !! k) as [e|] eqn:Hk; [|done].
    by apply Hm, elem_of_nil in Hk.
  - assert (Hd : ∀ k' e', delete k m !! k' = Some e' → k' ∈ l.*1).
    { intros k' e' [Hne Hk']%lookup_delete_Some.
      apply Hm in Hk'. simpl in Hk'. apply elem_of_cons in Hk' as [?|?]; done. }
    destruct (m !! k) as [e0|] eqn:Hk; [by apply IH|].
    rewrite <- (delete_id m k Hk). by apply IH.
Qed.

(** The loop of [Purge] over one bucket empties it when every enumerated
    entry points to a cell that carries the key it is stored under. *)
Lemma Purge_entries_empty (h : gmap positive Item)
    (l : list (string * positive)) (m : gmap string positive) :
  (∀ k e, m !! k = Some e → k ∈ l.*1) →
  (∀ k e, (k, e) ∈ l → ∃ it, h !! e = Some it ∧ Key it = k) →
  Purge_entries h l m = Some ∅.
Proof.
  revert m. induction l as [|[k e] l IH]; intros m Hm Hl; simpl.
  - f_equal. apply map_empty. intros k.
    destruct (m !! k) as [e|] eqn:Hk; [|done].
    by apply Hm, elem_of_nil in Hk.
  - assert (Hd : ∀ k' e', delete k m !! k' = Some e' → k' ∈ l.*1).
    { intros k' e' [Hne Hk']%lookup_delete_Some.
      apply Hm in Hk'. simpl in Hk'. apply elem_of_cons in Hk' as [?|?]; done. }
    assert (Hl' : ∀ k' e', (k', e') ∈ l → ∃ it, h !! e' = Some it ∧ Key it = k').
    { intros k' e' Hin. apply Hl. by right. }
    destruct (m !! k) as [e0|] eqn:Hk.
    + destruct (Hl k e) as (it & -> & <-); [by left|]. simpl. by apply IH.
    + rewrite <- (delete_id m k Hk). by apply IH.
Qed.

Lemma map_to_list_keys (m : gmap string positive) (k : string) (e : positive) :
  m !! k = Some e → k ∈ (map_to_list m).*1.
Proof.
  intros Hk. apply list_elem_of_fmap. exists (k, e). split; [done|].
  by apply elem_of_map_to_list.
Qed.

Lemma Purge_spec (c : LRU) :
  wf c →
  let c' := set_queue []
              (set_buckets ((λ b, mkBucket ∅ (newestEntry b)) <$> buckets c)
                 (set_items ∅ c)) in
  Purge c = Some c' ∧ wf c'.
Proof.
  intros [Hc Hm] c'. split.
  - unfold Purge.
    rewrite Purge_items_empty by apply map_to_list_keys.
    assert (mapM (Purge_bucket (heap c)) (buckets c)
            = Some ((λ b, mkBucket ∅ (newestEntry b)) <$> buckets c)) as ->;
      [|done].
    apply mapM_Some. apply Forall2_fmap_r, Forall2_same_length_lookup.
    split; [done|]. intros i b b' Hb Hb'. assert (b' = b) as -> by congruence.
    unfold Purge_bucket. rewrite Purge_entries_empty; [done|..].
    + apply map_to_list_keys.
    + intros k e Hin%elem_of_map_to_list.
      destruct (wf_entries c Hc _ _ _ _ Hb Hin) as [Hi _].
      destruct (wf_items c Hc _ _ Hi) as [_ ?]. done.
  - destruct Hc as [H1 H2 H3 H4 H5 H6].
    split; [split|]; simpl; try done.
    + by rewrite length_fmap.
    + apply NoDup_nil_2.
    + intros e He. by apply elem_of_nil in He.
    + intros i b k e Hb. apply list_lookup_fmap_Some in Hb as (b0 & -> & _).
      simpl. done.
Qed.

(** In a state that satisfies the invariant the loops of [Purge] end with
    empty maps in whatever order Go enumerates them. *)
Lemma Purge_loops_any_order (c : LRU) :
  wf c →
  (∀ l, l ≡ₚ map_to_list (items c) → Purge_items l (items c) = ∅) ∧
  (∀ i b l, buckets c !! i = Some b → l ≡ₚ map_to_list (entries b) →
            Purge_entries (heap c) l (entries b) = Some ∅).
Proof.
  intros [Hc _]. split.
  - intros l Hl. apply Purge_items_empty. intros k e Hk.
    rewrite Hl. by eapply map_to_list_keys.
  - intros i b l Hb Hl. apply Purge_entries_empty.
    + intros k e Hk. rewrite Hl. by eapply map_to_list_keys.
    + intros k e Hin. rewrite Hl in Hin. apply elem_of_map_to_list in Hin.
      destruct (wf_entries c Hc _ _ _ _ Hb Hin) as [Hi _].
      by destruct (wf_items c Hc _ _ Hi) as [_ ?].
Qed.

(** The buckets of [removed] are those of the state it starts from, one of
    them with one key less. *)
Lemma removed_entries_lookup (k k' : string) (e e' : positive) (it : Item)
    (b0 b' : bucket) (c : LRU) (i : nat) :
  buckets c !! Z.to_nat (ExpireBucket it) = Some b0 →
  buckets (removed k e it b0 c) !! i = Some b' →
  entries b' !! k' = Some e' →
  ∃ b, buckets c !! i = Some b ∧ entries b !! k' = Some e' ∧
       newestEntry b' = newestEntry b.
Proof.
  intros Hb0. simpl.
  intros [[-> ->]|[Hne Hb']]%lookup_buckets_insert; simpl.
  - intros [_ Hl]%lookup_delete_Some. eauto.
  - eauto.
Qed.

(** The range loop of [deleteExpired] over any enumeration [l] that agrees
    with the current content of the bucket: no panic, and the invariant,
    the cursor and the configuration are kept. *)
Lemma deleteExpired_loop_spec (n : nat) (l : list (string * positive))
    (c : LRU) :
  wf c → (n < Z.to_nat numBuckets)%nat →
  (∀ k e b e', (k, e) ∈ l → buckets c !! n = Some b →
               entries b !! k = Some e' → e' = e) →
  ∃ c', deleteExpired_loop (Z.of_nat n) l c = Some c' ∧ wf c' ∧
        nextCleanupBucket c' = nextCleanupBucket c ∧
        cap c' = cap c ∧ ttl c' = ttl c ∧
        (∀ b' k e, buckets c' !! n = Some b' → entries b' !! k = Some e →
                   (k ∉ l.*1) ∧
                   ∃ b, buckets c !! n = Some b ∧ entries b !! k = Some e).
Proof.
  revert c. induction l as [|[k e] l IH]; intros c Hwf Hn Hl; simpl.
  - exists c. split_and!; try done. intros b' k e Hb Hk. split; [|eauto].
    apply not_elem_of_nil.
  - rewrite Nat2Z.id.
    destruct (lookup_lt_is_Some_2 (buckets c) n) as [b Hb].
    { by rewrite (wf_buckets_len c (proj1 Hwf)). }
    rewrite Hb. simpl.
    destruct (entries b !! k) as [e'|] eqn:Hk.
    + assert (e' = e) as -> by (eapply Hl; [by left|done..]).
      destruct (wf_entries c (proj1 Hwf) _ _ _ _ Hb Hk) as [Hi _].
      destruct (wf_removeElement _ _ _ Hwf Hi)
        as (it & b0 & Hit & HK & Hb0 & Hl0 & Hr & Hwf').
      simpl in Hr. rewrite Hr. simpl.
      destruct (IH (removed k e it b0 c) Hwf' Hn)
        as (c' & Hc' & Hwfc' & ? & ? & ? & Hrest).
      { intros k2 e2 b2 e2' Hin Hb2 Hl2.
        destruct (removed_entries_lookup _ _ _ _ _ _ _ _ _ Hb0 Hb2 Hl2)
          as (b3 & Hb3 & Hl3 & _).
        eapply Hl; [by right|done..]. }
      exists c'. split_and!; try done.
      intros b' k2 e2 Hb' Hk2. destruct (Hrest _ _ _ Hb' Hk2) as [Hnin (b2 & Hb2 & Hl2)].
      destruct (removed_entries_lookup _ _ _ _ _ _ _ _ _ Hb0 Hb2 Hl2)
        as (b3 & Hb3 & Hl3 & _).
      split; [|exists b3; split; [congruence|done]].
      simpl. apply not_elem_of_cons. split; [|done].
      intros ->. revert Hb2 Hl2. simpl.
      assert (Z.to_nat (ExpireBucket it) = n) as ->.
      { destruct (wf_entries c (proj1 Hwf) _ _ _ _ Hb Hk) as [_ (it' & Hit' & Hx & _)].
        assert (it' = it) as -> by congruence. rewrite Hx. apply Nat2Z.id. }
      rewrite list_lookup_insert_eq by (by apply lookup_lt_Some in Hb).
      intros [= <-]. simpl. by rewrite lookup_delete_eq.
    + destruct (IH c Hwf Hn) as (c' & Hc' & Hwfc' & ? & ? & ? & Hrest).
      { intros k2 e2 b2 e2' Hin. apply Hl. by right. }
      exists c'. split_and!; try done.
      intros b' k2 e2 Hb' Hk2. destruct (Hrest _ _ _ Hb' Hk2) as [Hnin (b2 & Hb2 & Hl2)].
      split; [|exists b2; split; [congruence|done]].
      simpl. apply not_elem_of_cons. split; [|done].
      intros ->. congruence.
Qed.

Lemma deleteExpired_sweep_from_spec (c : LRU) (b : bucket)
    (l : list (string * positive)) :
  wf c → buckets c !! Z.to_nat (nextCleanupBucket c) = Some b →
  l ≡ₚ map_to_list (entries b) →
  ∃ c', deleteExpired_sweep_from l (nextCleanupBucket c) c = Some c' ∧
        wf c' ∧
        nextCleanupBucket c' = (nextCleanupBucket c + 1) mod numBuckets ∧
        cap c' = cap c ∧ ttl c' = ttl c ∧
        ∀ b', buckets c' !! Z.to_nat (nextCleanupBucket c) = Some b' →
              entries b' = ∅.
Proof.
  intros Hwf Hb Hperm. pose proof (wf_cursor c (proj1 Hwf)) as Hcur.
  unfold deleteExpired_sweep_from.
  destruct (deleteExpired_loop_spec (Z.to_nat (nextCleanupBucket c)) l c Hwf)
    as (c' & Hc' & Hwf' & Hn & Hcap & Httl & Hrest).
  { lia. }
  { intros k e b2 e' Hin Hb2 Hl. rewrite Hperm in Hin.
    apply elem_of_map_to_list in Hin. congruence. }
  rewrite Z2Nat.id in Hc' by lia. rewrite Hc'. simpl.
  eexists. split; [done|]. split_and!; simpl; try done.
  - destruct Hwf' as [[H1 H2 H3 H4 H5 H6] Hm].
    split; [split|]; simpl; try done.
    unfold uint8, numBuckets. split; [|apply Z.mod_pos_bound; lia].
    apply Z.mod_pos_bound. lia.
  - rewrite Hn. unfold uint8, numBuckets in *.
    rewrite (Z.mod_small (_ + 1) 256) by lia. done.
  - intros b' Hb'. apply map_empty. intros k.
    destruct (entries b' !! k) as [e|] eqn:Hk; [|done].
    destruct (Hrest _ _ _ Hb' Hk) as [Hnin (b2 & Hb2 & Hl2)].
    assert (b2 = b) as -> by congruence.
    exfalso. apply Hnin. rewrite Hperm. by eapply map_to_list_keys.
Qed.

Lemma deleteExpired_sweep_spec (c : LRU) :
  wf c →
  ∃ c', deleteExpired_sweep (nextCleanupBucket c) c = Some c' ∧ wf c' ∧
        nextCleanupBucket c' = (nextCleanupBucket c + 1) mod numBuckets ∧
        cap c' = cap c ∧ ttl c' = ttl c ∧
        ∀ b', buckets c' !! Z.to_nat (nextCleanupBucket c) = Some b' →
              entries b' = ∅.
Proof.
  intros Hwf. pose proof (wf_cursor c (proj1 Hwf)) as Hcur.
  destruct (lookup_lt_is_Some_2 (buckets c) (Z.to_nat (nextCleanupBucket c)))
    as [b Hb].
  { rewrite (wf_buckets_len c (proj1 Hwf)). lia. }
  unfold deleteExpired_sweep. rewrite Hb. simpl.
  by apply (deleteExpired_sweep_from_spec c b).
Qed.

(** ** Every reachable state satisfies the invariant *)

Lemma wf_Add (key : string) (value : any) (now : Z) (c : LRU) :
  wf c → ∃ c', Add key value now c = Some c' ∧ wf c'.
Proof.
  intros Hwf. destruct (items c !! key) as [e|] eqn:Hk.
  - destruct (Add_update_spec key value now e c Hwf Hk)
      as (it & b0 & b & _ & _ & _ & _ & _ & HA & Hwf'). eauto.
  - destruct (Add_insert_spec key value now c Hwf Hk)
      as (c1 & b & _ & _ & _ & _ & _ & HA & Hwf'). eauto.
Qed.

Lemma wf_call (o : op) (now : Z) (c : LRU) :
  wf c → ∃ c', call o now c = Some c' ∧ wf c'.
Proof.
  intros Hwf. destruct o as [key value|key|key| |]; simpl.
  - by apply wf_Add.
  - destruct (wf_Get key now c Hwf) as (r & -> & Hr). eauto.
  - destruct (Remove_spec key c Hwf)
      as [[_ ->]|(e & it & b & _ & _ & _ & _ & _ & -> & Hwf')]; eauto.
  - destruct (RemoveOldest_spec c Hwf)
      as [[_ ->]|(q & e & it & b & _ & _ & _ & _ & _ & -> & Hwf')]; eauto.
  - destruct (Purge_spec c Hwf) as [-> Hwf']. eauto.
Qed.

Lemma reachable_wf (c : LRU) : reachable c → wf c.
Proof.
  induction 1 as [cap ttl|c o now c' _ IH Hc|c b l c' _ IH _ Hb Hl Hs].
  - apply wf_NewLRU.
  - destruct (wf_call o now c IH) as (c2 & Hc2 & Hwf). congruence.
  - destruct (deleteExpired_sweep_from_spec c b l IH Hb Hl)
      as (c2 & Hc2 & Hwf & _). congruence.
Qed.

Lemma run_reachable (l : list (op * Z)) (c c' : LRU) :
  reachable c → run l c = Some c' → reachable c'.
Proof.
  revert c. induction l as [|[o now] l IH]; intros c Hc; simpl.
  - by intros [= <-].
  - destruct (call o now c) as [c1|] eqn:H1; simpl; [|done].
    apply IH. by eapply reachable_call.
Qed.

Lemma run_adds_reachable (l : list (string * any * Z)) (c c' : LRU) :
  reachable c → run_adds l c = Some c' → reachable c'.
Proof.
  revert c. induction l as [|[[k v] now] l IH]; intros c Hc; simpl.
  - by intros [= <-].
  - destruct (Add k v now c) as [c1|] eqn:H1; simpl; [|done].
    apply IH. by apply (reachable_call c (OpAdd k v) now).
Qed.

(** ** Capacity *)

Lemma wf_items_empty (c : LRU) : wf c → queue c = [] → items c = ∅.
Proof.
  intros [Hc _] Hq. apply map_empty. intros k.
  destruct (items c !! k) as [e|] eqn:Hk; [|done].
  destruct (wf_items c Hc k e Hk) as [He _]. rewrite Hq in He.
  by apply elem_of_nil in He.
Qed.

(** One [Add] keeps the capacity and never takes the number of live entries
    above it, when the capacity is positive. *)
Lemma Add_Len (key : string) (value : any) (now : Z) (c c' : LRU) :
  wf c → 1 ≤ cap c → Z.of_nat (Len c) ≤ cap c →
  Add key value now c = Some c' →
  cap c' = cap c ∧ Z.of_nat (Len c') ≤ cap c.
Proof.
  unfold Len. intros Hwf Hcap Hlen HA.
  destruct (items c !! key) as [e|] eqn:Hk.
  - destruct (Add_update_spec key value now e c Hwf Hk)
      as (it & b0 & b & _ & _ & _ & _ & _ & HA' & _).
    rewrite HA' in HA. injection HA as <-. simpl. done.
  - destruct (Add_insert_spec key value now c Hwf Hk)
      as (c1 & b & Hc1 & Hwf1 & Hk1 & _ & _ & HA' & _).
    rewrite HA' in HA. injection HA as <-. simpl.
    rewrite map_size_insert_None by done.
    destruct (Z.eqb_spec (Z.of_nat (size (items c))) (cap c)) as [Heq|Hne].
    + destruct (removeOldest_spec c Hwf)
        as [[Hq Hr]|(q & e & it & b1 & _ & _ & Hi & _ & _ & Hr & _)].
      * apply (wf_items_empty c Hwf) in Hq. rewrite Hq, map_size_empty in Heq.
        lia.
      * rewrite Hr in Hc1. injection Hc1 as <-. simpl.
        rewrite map_size_delete_Some by eauto.
        assert (size (items c) ≠ 0%nat) by (apply (map_size_ne_0_lookup_2 _ (Key it)); eauto).
        lia.
    + injection Hc1 as <-. lia.
Qed.

Lemma run_adds_Len (l : list (string * any * Z)) (c : LRU) :
  wf c → 1 ≤ cap c → Z.of_nat (Len c) ≤ cap c →
  ∃ c', run_adds l c = Some c' ∧ wf c' ∧ cap c' = cap c ∧
        Z.of_nat (Len c') ≤ cap c.
Proof.
  revert c. induction l as [|[[k v] now] l IH]; intros c Hwf Hcap Hlen; simpl.
  - eauto.
  - destruct (wf_Add k v now c Hwf) as (c1 & HA & Hwf1). rewrite HA. simpl.
    destruct (Add_Len _ _ _ _ _ Hwf Hcap Hlen HA) as [Hc1 Hl1].
    destruct (IH c1 Hwf1) as (c' & Hr & Hwf' & Hc' & Hl'); [lia..|].
    exists c'. split_and!; [done|done|congruence|lia].
Qed.

(** C1. For every capacity [capacity ≥ 1] and every sequence [l] of [Add]
    calls with pairwise distinct keys, run on a fresh cache at arbitrary clock
    readings with nothing else in between: after each prefix of the sequence
    no call has panicked and the number of live entries [len(c.items)] is at
    most [capacity]. *)
Theorem C1_capacity_invariant (capacity ttl : Z) (l : list (string * any * Z))
    (n : nat) :
  1 ≤ capacity → NoDup (l.*1.*1) →
  ∃ c, run_adds (take n l) (NewLRU capacity ttl) = Some c ∧
       Z.of_nat (Len c) ≤ capacity.
Proof.
  intros Hcap _.
  assert (Hc : cap (NewLRU capacity ttl) = capacity).
  { simpl. destruct (Z.ltb_spec capacity 0); [lia|done]. }
  destruct (run_adds_Len (take n l) (NewLRU capacity ttl))
    as (c & Hr & _ & _ & Hl).
  - apply wf_NewLRU.
  - lia.
  - rewrite Hc. unfold Len, NewLRU. cbn [items]. rewrite map_size_empty. lia.
  - exists c. split; [done|]. by rewrite <- Hc.
Qed.

Lemma C1_capacity_invariant_witness :
  ∃ c, run_adds
         (take 3 [("A"%string, IntVal 1, 10); ("B"%string, IntVal 2, 11);
                  ("C"%string, IntVal 3, 12)]) (NewLRU 2 5) = Some c ∧
       Z.of_nat (Len c) ≤ 2.
Proof.
  apply (C1_capacity_invariant 2 5
           [("A"%string, IntVal 1, 10); ("B"%string, IntVal 2, 11);
            ("C"%string, IntVal 3, 12)] 3).
  - lia.
  - apply (bool_decide_unpack _). vm_compute. exact I.
Defined.

(** ** Example executions are reachable *)

Lemma demo_reachable : reachable demo.
Proof.
  apply (run_reachable demo_calls (NewLRU 2 5)); [constructor|].
  vm_compute. reflexivity.
Qed.

Lemma demo_removed_reachable : reachable demo_removed.
Proof.
  apply (run_reachable (demo_calls ++ [(OpRemove "B", 21)]) (NewLRU 2 5));
    [constructor|].
  vm_compute. reflexivity.
Qed.

(** ** Get *)

Lemma Get_absent (key : string) (now : Z) (c : LRU) :
  items c !! key = None → Get key now c = Some (nil, false, c).
Proof. unfold Get. by intros ->. Qed.

Lemma Get_expired (key : string) (now : Z) (c : LRU) (e : positive)
    (it : Item) :
  items c !! key = Some e → heap c !! e = Some it → ExpiresAt it < now →
  Get key now c = Some (nil, false, c).
Proof.
  unfold Get, time.After. intros -> Hit Hlt. rewrite Hit. simpl.
  destruct (Z.ltb_spec (ExpiresAt it) now); [done|lia].
Qed.

Lemma Get_live (key : string) (now : Z) (c : LRU) (e : positive) (it : Item) :
  items c !! key = Some e → heap c !! e = Some it → now ≤ ExpiresAt it →
  Get key now c =
    Some (Value it, true, set_queue (clist.MoveToFront e (queue c)) c).
Proof.
  unfold Get, time.After. intros -> Hit Hle. rewrite Hit. simpl.
  destruct (Z.ltb_spec (ExpiresAt it) now); [lia|done].
Qed.

(** C2. In every reachable state and at every clock reading [now], [Get key]
    does not panic and: returns [(nil, false)] when [key] is absent from the
    Key Index; returns [(nil, false)] when [key] is present and [now] is
    strictly after the entry's [ExpiresAt] (decided from the entry alone, the
    sweeper plays no part); otherwise returns the stored value with [true]
    and moves the entry to the front of the recency queue, the other
    entries keeping their order. *)
Theorem C2_Get_contract (key : string) (now : Z) (c : LRU) :
  reachable c →
  (items c !! key = None → Get key now c = Some (nil, false, c)) ∧
  (∀ e, items c !! key = Some e →
     ∃ it, heap c !! e = Some it ∧
       (ExpiresAt it < now → ∃ c', Get key now c = Some (nil, false, c')) ∧
       (now ≤ ExpiresAt it →
          Get key now c =
            Some (Value it, true,
                  set_queue (e :: clist.Remove e (queue c)) c))).
Proof.
  intros Hwf%reachable_wf. split; [apply Get_absent|].
  intros e Hk.
  destruct (wf_items c (proj1 Hwf) key e Hk) as [Hq (it & Hit & _)].
  exists it. split_and!; [done|..].
  - intros Hlt. exists c. by eapply Get_expired.
  - intros Hle. rewrite <- (MoveToFront_elem e (queue c) Hq).
    by eapply Get_live.
Qed.

Lemma C2_Get_contract_witness :
  Get "A" 12 demo =
    Some (IntVal 1, true,
          set_queue (1%positive :: clist.Remove 1%positive (queue demo)) demo)
  ∧ ∃ c', Get "A" 16 demo = Some (nil, false, c').
Proof.
  assert (H16 := C2_Get_contract "A" 16 demo demo_reachable).
  destruct (C2_Get_contract "A" 12 demo demo_reachable) as [_ H].
  destruct (H 1%positive) as (it & Hit & _ & Hlive); [vm_compute; reflexivity|].
  assert (it = mkItem "A" (IntVal 1) 15 99) as ->.
  { vm_compute in Hit. congruence. }
  split; [apply Hlive; simpl; lia|].
  destruct H16 as [_ H16]. destruct (H16 1%positive) as (it & Hit' & Hexp & _);
    [vm_compute; reflexivity|].
  apply Hexp. vm_compute in Hit'. injection Hit' as <-. simpl. lia.
Defined.

(** ** A zero TTL *)

(** With [ttl = 0] the entry written by [Add] at instant [t] carries
    [ExpiresAt = t], so [Get] at any later instant reports it expired. *)
Lemma Get_after_Add_ttl_zero (key : string) (value : any) (t t' : Z)
    (c c' : LRU) :
  reachable c → ttl c = 0 → Add key value t c = Some c' → t < t' →
  Get key t' c' = Some (nil, false, c').
Proof.
  intros Hwf%reachable_wf Httl HA Hlt.
  destruct (items c !! key) as [e|] eqn:Hk.
  - destruct (Add_update_spec key value t e c Hwf Hk)
      as (it & b0 & b & _ & _ & _ & _ & _ & HA' & _).
    rewrite HA' in HA. injection HA as <-.
    eapply (Get_expired key t' _ e); simpl; [done|apply lookup_insert_eq|].
    simpl. unfold time.Add. lia.
  - destruct (Add_insert_spec key value t c Hwf Hk)
      as (c1 & b & Hc1 & _ & _ & _ & _ & HA' & _).
    rewrite HA' in HA. injection HA as <-.
    assert (ttl c1 = 0) as Httl1.
    { destruct (Z.of_nat (size (items c)) =? cap c); [|congruence].
      destruct (removeOldest_spec c Hwf)
        as [[_ Hr]|(q & e & it & b1 & _ & _ & _ & _ & _ & Hr & _)];
        rewrite Hr in Hc1; injection Hc1 as <-; done. }
    eapply (Get_expired key t' _ (fresh (dom (heap c1)))); simpl;
      [apply lookup_insert_eq|apply lookup_insert_eq|].
    simpl. unfold time.Add. lia.
Qed.

(** C3 (the code does not do this). On a cache built with [ttl = 0],
    [Add("A", 1)] at instant 10 stores the entry with [ExpiresAt = 10]; the
    key is still in the Key Index at instant 11, yet [Get("A")] at instant 11
    returns [(nil, false)]: the entry has expired after one nanosecond. *)
Theorem C3_ttl_zero_entry_expires :
  ∃ c, Add "A" (IntVal 1) 10 (NewLRU 1 0) = Some c ∧
       ttl c = 0 ∧ items c !! "A"%string = Some 1%positive ∧
       heap c !! 1%positive = Some (mkItem "A" (IntVal 1) 10 99) ∧
       Get "A" 11 c = Some (nil, false, c).
Proof.
  eexists. split; [vm_compute; reflexivity|].
  split_and!; vm_compute; reflexivity.
Qed.

(** ** Eviction order *)

(** C4. On a fresh cache of capacity 2, with any TTL, run [Add(A,1)] at
    instant [t1], [Add(B,2)] at [t2], [Get(A)] at [t3] and [Add(C,3)] at [t4];
    when [A] has not expired at [t3], [Get(A)] finds it, and afterwards:
    [Get(A)] at any instant [tA] at which [A] has not expired returns
    [(1, true)], [Get(C)] at any instant [tC] at which [C] has not expired
    returns [(3, true)], and [Get(B)] at any instant returns [(nil, false)],
    [B] being absent from the Key Index. *)
Theorem C4_LRU_eviction_order (ttl t1 t2 t3 t4 tA tB tC : Z) :
  let T := if ttl <? 0 then 0 else ttl in
  t3 ≤ t1 + T → tA ≤ t1 + T → tC ≤ t4 + T →
  ∃ c1 c2 c3 c4,
    Add "A" (IntVal 1) t1 (NewLRU 2 ttl) = Some c1 ∧
    Add "B" (IntVal 2) t2 c1 = Some c2 ∧
    Get "A" t3 c2 = Some (IntVal 1, true, c3) ∧
    Add "C" (IntVal 3) t4 c3 = Some c4 ∧
    (∃ c5, Get "A" tA c4 = Some (IntVal 1, true, c5)) ∧
    (∃ c5, Get "C" tC c4 = Some (IntVal 3, true, c5)) ∧
    Get "B" tB c4 = Some (nil, false, c4) ∧
    items c4 !! "B"%string = None ∧ Len c4 = 2%nat.
Proof.
  intros T H3 HA HC.
  eexists _, _, _, _.
  split; [vm_compute; reflexivity|].
  split; [vm_compute; reflexivity|].
  split.
  { apply (Get_live "A" t3 _ 1%positive
             (mkItem "A" (IntVal 1) (time.Add t1 T) 99));
      [vm_compute; reflexivity..|exact H3]. }
  split; [vm_compute; reflexivity|].
  split_and!.
  - eexists.
    apply (Get_live "A" tA _ 1%positive
             (mkItem "A" (IntVal 1) (time.Add t1 T) 99));
      [vm_compute; reflexivity..|exact HA].
  - eexists.
    apply (Get_live "C" tC _ 3%positive
             (mkItem "C" (IntVal 3) (time.Add t4 T) 99));
      [vm_compute; reflexivity..|exact HC].
  - apply Get_absent. vm_compute. reflexivity.
  - vm_compute. reflexivity.
  - vm_compute. reflexivity.
Qed.

Lemma C4_LRU_eviction_order_witness :
  ∃ c1 c2 c3 c4,
    Add "A" (IntVal 1) 10 (NewLRU 2 5) = Some c1 ∧
    Add "B" (IntVal 2) 11 c1 = Some c2 ∧
    Get "A" 12 c2 = Some (IntVal 1, true, c3) ∧
    Add "C" (IntVal 3) 13 c3 = Some c4 ∧
    (∃ c5, Get "A" 14 c4 = Some (IntVal 1, true, c5)) ∧
    (∃ c5, Get "C" 14 c4 = Some (IntVal 3, true, c5)) ∧
    Get "B" 14 c4 = Some (nil, false, c4) ∧
    items c4 !! "B"%string = None ∧ Len c4 = 2%nat.
Proof.
  apply (C4_LRU_eviction_order 5 10 11 12 13 14 14 14); simpl; lia.
Defined.

(** ** Expired entries met by Get *)

(** C5, as stated, fails: in the state reached by [Add(A,1)] at instant 10 and
    [Add(B,2)] at instant 20 with TTL 5, the entry of [A] expires at 15;
    [Get(A)] at instant 16 returns [(nil, false)] and the entry is still in
    the Key Index, in the recency queue and in bucket 99. *)
Lemma C5_expired_entry_not_destroyed :
  reachable demo ∧
  ∃ c' b,
    heap demo !! 1%positive = Some (mkItem "A" (IntVal 1) 15 99) ∧
    Get "A" 16 demo = Some (nil, false, c') ∧
    items c' !! "A"%string = Some 1%positive ∧
    1%positive ∈ queue c' ∧
    buckets c' !! 99%nat = Some b ∧ entries b !! "A"%string = Some 1%positive.
Proof.
  split; [apply demo_reachable|].
  eexists _, _. split_and!; try (vm_compute; reflexivity).
  apply (bool_decide_unpack _). vm_compute. exact I.
Qed.

(** C5, amended. In every reachable state, when [Get key] finds [key] in the
    Key Index with [now] strictly after the entry's [ExpiresAt], it returns
    [(nil, false)] and leaves the whole cache state as it was: the entry
    stays in the Key Index, in the recency queue and in the bucket its
    [ExpireBucket] names. *)
Theorem C5_Get_expired_keeps_entry (key : string) (now : Z) (c : LRU)
    (e : positive) (it : Item) :
  reachable c → items c !! key = Some e → heap c !! e = Some it →
  ExpiresAt it < now →
  Get key now c = Some (nil, false, c) ∧
  e ∈ queue c ∧
  ∃ b, buckets c !! Z.to_nat (ExpireBucket it) = Some b ∧
       entries b !! key = Some e.
Proof.
  intros [Hc Hm]%reachable_wf Hk Hit Hlt.
  split; [by eapply Get_expired|]. split; [by apply (wf_items c Hc key e)|].
  destruct (Hm key e Hk) as (it' & b & Hit' & Hb & Hl).
  assert (it' = it) as -> by congruence. eauto.
Qed.

Lemma C5_Get_expired_keeps_entry_witness :
  Get "A" 16 demo = Some (nil, false, demo) ∧
  1%positive ∈ queue demo ∧
  ∃ b, buckets demo !! 99%nat = Some b ∧
       entries b !! "A"%string = Some 1%positive.
Proof.
  apply (C5_Get_expired_keeps_entry "A" 16 demo 1%positive
           (mkItem "A" (IntVal 1) 15 99) demo_reachable).
  - vm_compute. reflexivity.
  - vm_compute. reflexivity.
  - simpl. lia.
Defined.

(** ** Bucket timestamps *)

(** C6, as stated, fails: after [Add(A,1)] at instant 10, [Add(B,2)] at
    instant 20 and [Remove(B)], with TTL 5, bucket 99 holds the entry of [A]
    alone, whose [ExpiresAt] is 15, while its [newestEntry] is still 25. *)
Lemma C6_newestEntry_not_maximum :
  reachable demo_removed ∧
  (∃ b, buckets demo_removed !! 99%nat = Some b ∧
        entries b = {[ "A"%string := 1%positive ]} ∧ newestEntry b = 25 ∧
        heap demo_removed !! 1%positive = Some (mkItem "A" (IntVal 1) 15 99)) ∧
  ¬ newest_is_max demo_removed.
Proof.
  split; [apply demo_removed_reachable|].
  assert (Hb : buckets demo_removed !! 99%nat
               = Some (mkBucket {[ "A"%string := 1%positive ]} 25))
    by (vm_compute; reflexivity).
  assert (Hh : heap demo_removed !! 1%positive
               = Some (mkItem "A" (IntVal 1) 15 99))
    by (vm_compute; reflexivity).
  split; [eauto|]. intros Hmax.
  destruct (Hmax _ _ Hb) as [_ (k & e & it & Hl & Hit & Heq)].
  { simpl. apply insert_non_empty. }
  simpl in Hl, Heq. apply lookup_singleton_Some in Hl as [<- <-].
  rewrite Hh in Hit. injection Hit as <-. simpl in Heq. lia.
Qed.

(** C6, amended. In every reachable state (reached through [Add], [Get],
    [Remove], [RemoveOldest], [Purge] and sweep steps, in any order and at any
    clock readings), the [newestEntry] of every bucket is greater than or
    equal to the [ExpiresAt] of each of its current members; every call and
    every sweep step (in any order of visit of the swept bucket) from such a
    state runs without panic and ends in a state where this holds again. *)
Theorem C6_newestEntry_bounds_members (c : LRU) :
  reachable c →
  newest_bounds c ∧
  (∀ o now, ∃ c', call o now c = Some c' ∧ newest_bounds c') ∧
  (∀ b l, buckets c !! Z.to_nat (nextCleanupBucket c) = Some b →
          l ≡ₚ map_to_list (entries b) →
          ∃ c', deleteExpired_sweep_from l (nextCleanupBucket c) c = Some c' ∧
                newest_bounds c').
Proof.
  assert (Hnb : ∀ c0, wf c0 → newest_bounds c0).
  { intros c0 [Hc _] i b k e it Hb Hl Hit.
    destruct (wf_entries c0 Hc i b k e Hb Hl) as [_ (it' & Hit' & _ & Hle)].
    congruence. }
  intros Hwf%reachable_wf. split_and!.
  - by apply Hnb.
  - intros o now. destruct (wf_call o now c Hwf) as (c' & Hc' & Hwf'). eauto.
  - intros b l Hb Hl.
    destruct (deleteExpired_sweep_from_spec c b l Hwf Hb Hl)
      as (c' & Hc' & Hwf' & _). eauto.
Qed.

Lemma C6_newestEntry_bounds_members_witness :
  newest_bounds demo_removed ∧
  (∀ o now, ∃ c', call o now demo_removed = Some c' ∧ newest_bounds c') ∧
  (∀ b l, buckets demo_removed !! Z.to_nat (nextCleanupBucket demo_removed)
            = Some b →
          l ≡ₚ map_to_list (entries b) →
          ∃ c', deleteExpired_sweep_from l (nextCleanupBucket demo_removed)
                  demo_removed = Some c' ∧
                newest_bounds c').
Proof.
  apply (C6_newestEntry_bounds_members demo_removed).
  apply (run_reachable (demo_calls ++ [(OpRemove "B", 21)]) (NewLRU 2 5));
    [constructor|].
  vm_compute. reflexivity.
Defined.

(** ** Bucket assignment *)

Lemma newest_raise (n x : Z) :
  (if time.Before n x then x else n) = Z.max n x.
Proof. unfold time.Before. destruct (Z.ltb_spec n x); lia. Qed.

(** One key less in the bucket [n], the other buckets as they were: the
    [newestEntry] of every bucket is unchanged. *)
Lemma lookup_unbucket (bs : list bucket) (n i : nat) (k : string)
    (b0 b : bucket) :
  bs !! n = Some b0 →
  <[n := mkBucket (delete k (entries b0)) (newestEntry b0)]> bs !! i = Some b →
  ∃ b1, bs !! i = Some b1 ∧ newestEntry b = newestEntry b1 ∧
        entries b = (if decide (i = n) then delete k (entries b1)
                     else entries b1).
Proof.
  intros Hn [[-> ->]|[Hne Hb]]%lookup_buckets_insert.
  - exists b0. by rewrite decide_True.
  - exists b. by rewrite decide_False.
Qed.

(** What [Add] does to the buckets, on both of its paths. *)
Lemma Add_bucket_spec (key : string) (value : any) (now : Z) (c c' : LRU) :
  wf c → Add key value now c = Some c' →
  wf c' ∧
  ∃ e b b',
    buckets c !! Z.to_nat (bucketId c) = Some b ∧
    items c' !! key = Some e ∧
    heap c' !! e = Some (mkItem key value (now + ttl c) (bucketId c)) ∧
    buckets c' !! Z.to_nat (bucketId c) = Some b' ∧
    entries b' !! key = Some e ∧
    newestEntry b' = Z.max (newestEntry b) (now + ttl c).
Proof.
  intros Hwf HA. destruct (items c !! key) as [e|] eqn:Hk.
  - destruct (Add_update_spec key value now e c Hwf Hk)
      as (it & b0 & b & Hit & HK & Hb0 & Hl0 & Hb & HA' & Hwf').
    rewrite HA' in HA. injection HA as <-. split; [done|].
    simpl in Hb. destruct (lookup_unbucket _ _ _ _ _ _ Hb0 Hb)
      as (b1 & Hb1 & Hn1 & _).
    exists e, b1. eexists. split_and!; [done|done|..].
    + simpl. by rewrite lookup_insert_eq.
    + simpl. apply list_lookup_insert_eq. by apply lookup_lt_Some in Hb.
    + simpl. by rewrite lookup_insert_eq.
    + simpl. rewrite newest_raise. by rewrite Hn1.
  - destruct (Add_insert_spec key value now c Hwf Hk)
      as (c1 & b & Hc1 & Hwf1 & Hk1 & He & Hb & HA' & Hwf').
    rewrite HA' in HA. injection HA as <-. split; [done|].
    assert (∃ b1, buckets c !! Z.to_nat (bucketId c) = Some b1 ∧
                  newestEntry b = newestEntry b1 ∧
                  nextCleanupBucket c1 = nextCleanupBucket c ∧
                  ttl c1 = ttl c) as (b1 & Hb1 & Hn1 & Hcur & Httl).
    { simpl in Hb. destruct (Z.of_nat (size (items c)) =? cap c).
      - destruct (removeOldest_spec c Hwf)
          as [[_ Hr]|(q & e & it & b2 & _ & _ & _ & Hb2 & _ & Hr & _)];
          rewrite Hr in Hc1; injection Hc1 as <-; [eauto|].
        unfold bucketId in Hb. simpl in Hb. fold (bucketId c) in Hb.
        destruct (lookup_unbucket _ _ _ _ _ _ Hb2 Hb) as (b1 & ? & ? & _).
        eauto.
      - injection Hc1 as <-. eauto. }
    assert (Hid : bucketId c1 = bucketId c) by (unfold bucketId; by rewrite Hcur).
    simpl. rewrite Httl.
    change (bucketId (inserted key value now (fresh (dom (heap c1))) c1))
      with (bucketId c1).
    rewrite Hid.
    exists (fresh (dom (heap c1))), b1. eexists. split_and!; [done|..].
    + by rewrite lookup_insert_eq.
    + by rewrite lookup_insert_eq.
    + apply list_lookup_insert_eq. rewrite <- Hid. by apply lookup_lt_Some in Hb.
    + simpl. by rewrite lookup_insert_eq.
    + simpl. rewrite newest_raise. by rewrite Hn1.
Qed.

(** C7. In every reachable state, [Add key value] at instant [now] does not
    panic and, with [id = (nextCleanupBucket - 1 + numBuckets) mod numBuckets]
    and [numBuckets = 100]: the entry of [key] (new or refreshed) has
    [ExpireBucket = id] and [ExpiresAt = now + ttl] and is a member of bucket
    [id]; no other bucket has a member under [key]; when [key] was present
    in a bucket other than [id], that bucket is the old one without [key];
    and the [newestEntry] of bucket [id] is the larger of its former value
    and the entry's [ExpiresAt]. *)
Theorem C7_bucket_assignment (key : string) (value : any) (now : Z) (c : LRU) :
  reachable c →
  let id := (nextCleanupBucket c - 1 + numBuckets) mod numBuckets in
  numBuckets = 100 ∧
  ∃ c' e b b',
    Add key value now c = Some c' ∧
    buckets c !! Z.to_nat id = Some b ∧
    items c' !! key = Some e ∧
    heap c' !! e = Some (mkItem key value (now + ttl c) id) ∧
    buckets c' !! Z.to_nat id = Some b' ∧
    entries b' !! key = Some e ∧
    newestEntry b' = Z.max (newestEntry b) (now + ttl c) ∧
    (∀ i b2, buckets c' !! i = Some b2 → i ≠ Z.to_nat id →
             entries b2 !! key = None) ∧
    (∀ e0 it0 b0,
       items c !! key = Some e0 → heap c !! e0 = Some it0 →
       buckets c !! Z.to_nat (ExpireBucket it0) = Some b0 →
       ExpireBucket it0 ≠ id →
       buckets c' !! Z.to_nat (ExpireBucket it0)
         = Some (mkBucket (delete key (entries b0)) (newestEntry b0))).
Proof.
  intros Hwf%reachable_wf id. split; [done|].
  destruct (bucketId_wf c (wf_cursor c (proj1 Hwf))) as [Hid Hrange].
  fold id in Hid. rewrite <- Hid.
  destruct (wf_Add key value now c Hwf) as (c' & HA & _).
  destruct (Add_bucket_spec key value now c c' Hwf HA)
    as (Hwf' & e & b & b' & Hb & Hi & Hh & Hb' & Hl & Hn).
  exists c', e, b, b'. split_and!; try done.
  - intros i b2 Hb2 Hne. destruct (entries b2 !! key) as [e2|] eqn:Hl2; [|done].
    destruct (wf_entries c' (proj1 Hwf') i b2 key e2 Hb2 Hl2)
      as [Hi2 (it2 & Hit2 & Hx & _)].
    assert (e2 = e) as -> by congruence. rewrite Hh in Hit2.
    injection Hit2 as <-. simpl in Hx. rewrite Hx, Nat2Z.id in Hne. done.
  - intros e0 it0 b0 Hk Hit0 Hb0 Hne.
    destruct (Add_update_spec key value now e0 c Hwf Hk)
      as (it & b1 & b2 & Hit & HK & Hb1 & Hl1 & Hb2 & HA' & _).
    assert (it = it0) as -> by congruence.
    assert (b1 = b0) as -> by congruence.
    rewrite HA' in HA. injection HA as <-. simpl.
    assert (0 ≤ ExpireBucket it0).
    { destruct (proj2 Hwf key e0 Hk) as (it' & b3 & Hit' & Hb3 & Hl3).
      assert (it' = it0) as -> by congruence.
      destruct (wf_entries c (proj1 Hwf) _ _ _ _ Hb3 Hl3) as [_ (it' & ? & Hx & _)].
      assert (it' = it0) as -> by congruence. lia. }
    assert (Hnat : Z.to_nat (bucketId c) ≠ Z.to_nat (ExpireBucket it0)) by lia.
    rewrite list_lookup_insert_ne by exact Hnat.
    apply list_lookup_insert_eq. by apply lookup_lt_Some in Hb0.
Qed.

Lemma C7_bucket_assignment_witness :
  numBuckets = 100 ∧
  ∃ c' e b b',
    Add "A" (IntVal 7) 30 demo = Some c' ∧
    buckets demo !! 99%nat = Some b ∧
    items c' !! "A"%string = Some e ∧
    heap c' !! e = Some (mkItem "A" (IntVal 7) 35 99) ∧
    buckets c' !! 99%nat = Some b' ∧
    entries b' !! "A"%string = Some e ∧
    newestEntry b' = Z.max (newestEntry b) 35 ∧
    (∀ i b2, buckets c' !! i = Some b2 → i ≠ 99%nat →
             entries b2 !! "A"%string = None) ∧
    (∀ e0 it0 b0,
       items demo !! "A"%string = Some e0 → heap demo !! e0 = Some it0 →
       buckets demo !! Z.to_nat (ExpireBucket it0) = Some b0 →
       ExpireBucket it0 ≠ 99 →
       buckets c' !! Z.to_nat (ExpireBucket it0)
         = Some (mkBucket (delete "A"%string (entries b0)) (newestEntry b0))).
Proof.
  apply (C7_bucket_assignment "A" (IntVal 7) 30 demo demo_reachable).
Defined.

(** ** RemoveOldest *)

(** C8. In every reachable state [RemoveOldest] does not panic.  On an empty
    cache it returns [("", nil, false)] and changes nothing.  On a cache whose
    recency queue ends with the entry [e], it returns the key and value of
    [e] with [true] and leaves a state where [e] is gone from the queue (the
    other entries keeping their order), its key is gone from the Key Index
    and from every bucket, and nothing else in the Key Index changed.  The
    method reads no clock: an entry whose [ExpiresAt] has passed is returned
    like any other. *)
Theorem C8_RemoveOldest_contract (c : LRU) :
  reachable c →
  (Len c = 0%nat → queue c = []) ∧
  (queue c = [] → RemoveOldest c = Some (EmptyString, nil, false, c)) ∧
  (∀ q e, queue c = q ++ [e] →
     ∃ it c',
       heap c !! e = Some it ∧ items c !! Key it = Some e ∧
       RemoveOldest c = Some (Key it, Value it, true, c') ∧
       queue c' = q ∧
       items c' = delete (Key it) (items c) ∧
       (∀ i b, buckets c' !! i = Some b → entries b !! Key it = None) ∧
       Len c' = pred (Len c)).
Proof.
  intros Hwf%reachable_wf. split_and!.
  - intros Hlen. destruct (queue c) as [|e q] eqn:Hq; [done|].
    destruct (wf_queue c (proj1 Hwf) e) as (it & _ & Hi); [rewrite Hq; by left|].
    unfold Len in Hlen. apply map_size_empty_inv in Hlen.
    rewrite Hlen in Hi. by rewrite lookup_empty in Hi.
  - intros Hq. destruct (RemoveOldest_spec c Hwf)
      as [[_ Hr]|(q & e & ? & ? & Hq' & _)]; [done|].
    rewrite Hq in Hq'. by destruct q.
  - intros q e Hq. destruct (RemoveOldest_spec c Hwf)
      as [[Hq' _]|(q' & e' & it & b & Hq' & Hit & Hi & Hb & Hl & Hr & Hwf')].
    { rewrite Hq in Hq'. by destruct q. }
    rewrite Hq in Hq'. apply app_inj_tail in Hq' as [<- <-].
    exists it. eexists. split_and!; [done|done|exact Hr|..].
    + simpl. rewrite Hq. apply Remove_back. rewrite <- Hq.
      apply (wf_queue_nodup c (proj1 Hwf)).
    + done.
    + intros i b2 Hb2. destruct (entries b2 !! Key it) as [e2|] eqn:Hl2; [|done].
      destruct (wf_entries _ (proj1 Hwf') i b2 _ e2 Hb2 Hl2) as [Hi2 _].
      simpl in Hi2. by rewrite lookup_delete_eq in Hi2.
    + unfold Len. simpl. apply map_size_delete_Some. eauto.
Qed.

Lemma C8_RemoveOldest_contract_witness :
  ∃ c', RemoveOldest demo = Some ("A"%string, IntVal 1, true, c') ∧
        queue c' = [2%positive] ∧ items c' !! "A"%string = None.
Proof.
  destruct (C8_RemoveOldest_contract demo demo_reachable) as (_ & _ & H).
  destruct (H [2%positive] 1%positive) as (it & c' & Hit & _ & Hr & Hq & Hi & _);
    [vm_compute; reflexivity|].
  assert (it = mkItem "A" (IntVal 1) 15 99) as ->.
  { vm_compute in Hit. congruence. }
  exists c'. split_and!; [exact Hr|exact Hq|].
  rewrite Hi. apply lookup_delete_eq.
Defined.

(** ** Purge *)

(** C9. In every reachable state [Purge] does not panic and leaves a state
    where the Key Index is empty, every bucket has no member, the recency
    queue is empty, the number of live entries is 0, [Get] returns
    [(nil, false)] for every key at every instant, and the cursor
    [nextCleanupBucket] is the one before the call. *)
Theorem C9_Purge_completeness (c : LRU) :
  reachable c →
  ∃ c', Purge c = Some c' ∧
        items c' = ∅ ∧
        (∀ i b, buckets c' !! i = Some b → entries b = ∅) ∧
        length (buckets c') = Z.to_nat numBuckets ∧
        queue c' = [] ∧
        Len c' = 0%nat ∧
        (∀ key now, Get key now c' = Some (nil, false, c')) ∧
        nextCleanupBucket c' = nextCleanupBucket c.
Proof.
  intros Hwf%reachable_wf. destruct (Purge_spec c Hwf) as [HP Hwf'].
  eexists. split; [exact HP|]. split_and!; simpl; try done.
  - intros i b Hb. apply list_lookup_fmap_Some in Hb as (b0 & -> & _). done.
  - rewrite length_fmap. apply (wf_buckets_len c (proj1 Hwf)).
Qed.

Lemma C9_Purge_completeness_witness :
  ∃ c', Purge demo = Some c' ∧
        items c' = ∅ ∧
        (∀ i b, buckets c' !! i = Some b → entries b = ∅) ∧
        length (buckets c') = Z.to_nat numBuckets ∧
        queue c' = [] ∧
        Len c' = 0%nat ∧
        (∀ key now, Get key now c' = Some (nil, false, c')) ∧
        nextCleanupBucket c' = nextCleanupBucket demo.
Proof. apply (C9_Purge_completeness demo demo_reachable). Defined.

(** ** Add on an expired key *)

(** C10. In every reachable state, whatever the number of live entries, when
    [key] is in the Key Index with an entry whose [ExpiresAt] is strictly
    before [now], [Add key value] at [now] does not panic and takes the update
    path: the Key Index is unchanged (nothing is evicted, the number of live
    entries is the same), the entry is at the front of the recency queue with
    the other entries in their former order, its cell holds [value] and
    [ExpiresAt = now + ttl], and [Get key] at any instant up to [now + ttl]
    returns [(value, true)]. *)
Theorem C10_Add_expired_key_updates (key : string) (value : any) (now : Z)
    (c : LRU) (e : positive) (it : Item) :
  reachable c → items c !! key = Some e → heap c !! e = Some it →
  ExpiresAt it < now →
  ∃ c' it',
    Add key value now c = Some c' ∧
    items c' = items c ∧ Len c' = Len c ∧
    queue c' = e :: clist.Remove e (queue c) ∧
    heap c' !! e = Some it' ∧
    Key it' = key ∧ Value it' = value ∧ ExpiresAt it' = now + ttl c ∧
    ttl c' = ttl c ∧
    ∀ now', now' ≤ now + ttl c →
            ∃ c2, Get key now' c' = Some (value, true, c2).
Proof.
  intros Hwf%reachable_wf Hk Hit _.
  destruct (Add_update_spec key value now e c Hwf Hk)
    as (it0 & b0 & b & _ & _ & _ & _ & _ & HA & _).
  destruct (wf_items c (proj1 Hwf) key e Hk) as [Hq _].
  eexists. eexists. split; [exact HA|].
  split_and!; simpl; try done.
  - by apply MoveToFront_elem.
  - by rewrite lookup_insert_eq.
  - done.
  - done.
  - done.
  - intros now' Hle. eexists.
    eapply (Get_live key now' _ e
              (mkItem key value (time.Add now (ttl c)) (bucketId c)));
      simpl; [done|by rewrite lookup_insert_eq|exact Hle].
Qed.

Lemma C10_Add_expired_key_updates_witness :
  ∃ c' it',
    Add "A" (IntVal 7) 30 demo = Some c' ∧
    items c' = items demo ∧ Len c' = Len demo ∧
    queue c' = 1%positive :: clist.Remove 1%positive (queue demo) ∧
    heap c' !! 1%positive = Some it' ∧
    Key it' = "A"%string ∧ Value it' = IntVal 7 ∧ ExpiresAt it' = 35 ∧
    ttl c' = ttl demo ∧
    ∀ now', now' ≤ 35 → ∃ c2, Get "A" now' c' = Some (IntVal 7, true, c2).
Proof.
  apply (C10_Add_expired_key_updates "A" (IntVal 7) 30 demo 1%positive
           (mkItem "A" (IntVal 1) 15 99) demo_reachable).
  - vm_compute. reflexivity.
  - vm_compute. reflexivity.
  - simpl. lia.
Defined.

(** ** Further consequences *)


(** [Add(K,v); Remove(K)] returns [true], a second [Remove(K)] returns
    [false]. *)
Lemma Add_Remove_Remove (key : string) (value : any) (now : Z) (c c1 : LRU) :
  reachable c → Add key value now c = Some c1 →
  ∃ c2, Remove key c1 = Some (true, c2) ∧ Remove key c2 = Some (false, c2).
Proof.
  intros Hwf%reachable_wf HA.
  destruct (Add_bucket_spec key value now c c1 Hwf HA)
    as (Hwf1 & e & b & b' & _ & Hi & _).
  destruct (Remove_spec key c1 Hwf1)
    as [[Hn _]|(e' & it & b1 & _ & _ & _ & _ & _ & HR & Hwf2)]; [congruence|].
  eexists. split; [exact HR|].
  unfold Remove. simpl. by rewrite lookup_delete_eq.
Qed.

(** With capacity 0 the eviction test [len(c.items) == c.cap] holds only on
    the empty cache, where there is nothing to evict: every [Add] of a new
    key grows the cache. *)
Example capacity_zero_unbounded :
  ∃ c1 c2, Add "A" (IntVal 1) 10 (NewLRU 0 5) = Some c1 ∧ Len c1 = 1%nat ∧
           Add "B" (IntVal 2) 11 c1 = Some c2 ∧ Len c2 = 2%nat.
Proof.
  eexists _, _. split_and!; vm_compute; reflexivity.
Qed.

(** * More about package [ttl] *)

(** ** What the calls leave alone *)

(** No call assigns the capacity, the TTL or the cursor. *)
Lemma call_config (o : op) (now : Z) (c c' : LRU) :
  wf c → call o now c = Some c' →
  cap c' = cap c ∧ ttl c' = ttl c ∧
  nextCleanupBucket c' = nextCleanupBucket c.
Proof.
  intros Hwf Hc. destruct o as [key value|key|key| |]; simpl in Hc.
  - destruct (items c !! key) as [e|] eqn:Hk.
    + destruct (Add_update_spec key value now e c Hwf Hk)
        as (it & b0 & b & _ & _ & _ & _ & _ & HA & _).
      rewrite HA in Hc. by injection Hc as <-.
    + destruct (Add_insert_spec key value now c Hwf Hk)
        as (c1 & b & Hc1 & _ & _ & _ & _ & HA & _).
      rewrite HA in Hc. injection Hc as <-. simpl.
      destruct (Z.of_nat (size (items c)) =? cap c);
        [|by injection Hc1 as <-].
      destruct (removeOldest_spec c Hwf)
        as [[_ Hr]|(q & e & it & b1 & _ & _ & _ & _ & _ & Hr & _)];
        rewrite Hr in Hc1; by injection Hc1 as <-.
  - destruct (Get_spec key now c Hwf)
      as [[_ HG]|(e & it & _ & _ & _ & _ & HG)]; rewrite HG in Hc.
    + by injection Hc as <-.
    + destruct (time.After now (ExpiresAt it)); by injection Hc as <-.
  - destruct (Remove_spec key c Hwf)
      as [[_ HR]|(e & it & b & _ & _ & _ & _ & _ & HR & _)];
      rewrite HR in Hc; by injection Hc as <-.
  - destruct (RemoveOldest_spec c Hwf)
      as [[_ HR]|(q & e & it & b & _ & _ & _ & _ & _ & HR & _)];
      rewrite HR in Hc; by injection Hc as <-.
  - destruct (Purge_spec c Hwf) as [HP _]. rewrite HP in Hc.
    by injection Hc as <-.
Qed.

(** The recency queue and the Key Index have the same number of entries. *)
Lemma wf_queue_length (c : LRU) : wf c → length (queue c) = Len c.
Proof.
  intros [Hc _]. unfold Len. rewrite <- length_map_to_list.
  rewrite <- (length_fmap snd). apply Permutation_length, NoDup_Permutation.
  - apply (wf_queue_nodup c Hc).
  - apply NoDup_fmap_2_strong; [|apply NoDup_map_to_list].
    intros [k1 e1] [k2 e2] H1%elem_of_map_to_list H2%elem_of_map_to_list.
    simpl. intros <-. f_equal. by apply (wf_items_inj c k1 k2 e1).
  - intros e. rewrite list_elem_of_fmap. split.
    + intros He. destruct (wf_queue c Hc e He) as (it & _ & Hi).
      exists (Key it, e). split; [done|]. by apply elem_of_map_to_list.
    + intros ([k e'] & -> & Hin%elem_of_map_to_list).
      by destruct (wf_items c Hc k e' Hin) as [? _].
Qed.

(** ** The sweep, in full *)

(** What the range loop of [deleteExpired] over bucket [n] leaves alone: the
    cells, the other buckets, the [newestEntry] of bucket [n], every key that
    is not a member of bucket [n], and the order of the queue. *)
Lemma deleteExpired_loop_frame (n : nat) (l : list (string * positive))
    (c c' : LRU) :
  wf c → (n < Z.to_nat numBuckets)%nat →
  (∀ k e b e', (k, e) ∈ l → buckets c !! n = Some b →
               entries b !! k = Some e' → e' = e) →
  deleteExpired_loop (Z.of_nat n) l c = Some c' →
  heap c' = heap c ∧
  (∀ i, i ≠ n → buckets c' !! i = buckets c !! i) ∧
  (∀ b b', buckets c !! n = Some b → buckets c' !! n = Some b' →
           newestEntry b' = newestEntry b) ∧
  (∀ k e, items c' !! k = Some e → items c !! k = Some e) ∧
  (∀ k e b, items c !! k = Some e → buckets c !! n = Some b →
            entries b !! k = None → items c' !! k = Some e) ∧
  queue c' `sublist_of` queue c.
Proof.
  revert c. induction l as [|[k e] l IH]; intros c Hwf Hn Hl; simpl.
  { intros [= <-]. split_and!; try done. intros b b' H1 H2. congruence. }
  rewrite Nat2Z.id. intros Hloop.
  destruct (lookup_lt_is_Some_2 (buckets c) n) as [b Hb].
  { by rewrite (wf_buckets_len c (proj1 Hwf)). }
  rewrite Hb in Hloop. simpl in Hloop.
  destruct (entries b !! k) as [e'|] eqn:Hk.
  - assert (e' = e) as -> by (apply (Hl k e b e'); [by left|done..]).
    destruct (wf_entries c (proj1 Hwf) _ _ _ _ Hb Hk)
      as [Hi (it0 & Hit0 & Hx & _)].
    destruct (wf_removeElement _ _ _ Hwf Hi)
      as (it & b0 & Hit & HK & Hb0 & Hl0 & Hr & Hwf').
    assert (it0 = it) as -> by congruence.
    assert (Hidx : Z.to_nat (ExpireBucket it) = n) by (rewrite Hx; lia).
    rewrite Hidx in Hb0, Hr, Hwf'. assert (b0 = b) as -> by congruence.
    simpl in Hr. rewrite Hr in Hloop. simpl in Hloop.
    set (c1 := set_buckets
                 (<[n := mkBucket (delete k (entries b)) (newestEntry b)]>
                    (buckets c))
                 (set_items (delete k (items c))
                    (set_queue (clist.Remove e (queue c)) c))) in *.
    assert (Hb1 : buckets c1 !! n
                  = Some (mkBucket (delete k (entries b)) (newestEntry b))).
    { simpl. apply list_lookup_insert_eq. by apply lookup_lt_Some in Hb. }
    assert (Hsnap : ∀ k2 e2 b2 e2', (k2, e2) ∈ l → buckets c1 !! n = Some b2 →
                      entries b2 !! k2 = Some e2' → e2' = e2).
    { intros k2 e2 b2 e2' Hin Hb2 Hl2. rewrite Hb1 in Hb2.
      injection Hb2 as <-. simpl in Hl2.
      apply lookup_delete_Some in Hl2 as [_ Hl2].
      apply (Hl k2 e2 b e2'); [by right|done..]. }
    destruct (IH c1 Hwf' Hn Hsnap Hloop) as (Hh & Ho & Hne & Hsub & Hkeep & Hq).
    split_and!.
    + by rewrite Hh.
    + intros i Hi'. rewrite (Ho i Hi'). simpl.
      by rewrite list_lookup_insert_ne.
    + intros b2 b' Hb2 Hb'. assert (b2 = b) as -> by congruence.
      by rewrite (Hne _ _ Hb1 Hb').
    + intros k2 e2 Hk2. apply Hsub in Hk2. simpl in Hk2.
      by apply lookup_delete_Some in Hk2 as [_ ?].
    + intros k2 e2 b2 Hk2 Hb2 Hnone. assert (b2 = b) as -> by congruence.
      apply (Hkeep k2 e2 _ ltac:(simpl; rewrite lookup_delete_ne;
                                   [done|intros <-; congruence]) Hb1).
      simpl. rewrite lookup_delete_None. by right.
    + etrans; [exact Hq|]. simpl. apply sublist_filter.
  - apply (IH c Hwf Hn); [|exact Hloop].
    intros k2 e2 b2 e2' Hin. apply Hl. by right.
Qed.

Lemma sweeps_reachable (n : nat) (now : Z) (c c' : LRU) :
  reachable c → ttl c ≠ 0 → sweeps n now c = Some c' → reachable c'.
Proof.
  revert c. induction n as [|n IH]; intros c Hc Httl; simpl.
  { by intros [= <-]. }
  unfold deleteExpired, deleteExpired_wait, deleteExpired_sweep.
  destruct (buckets c !! Z.to_nat (nextCleanupBucket c)) as [b|] eqn:Hb;
    simpl; [|done].
  rewrite Hb. simpl.
  destruct (deleteExpired_sweep_from (map_to_list (entries b))
              (nextCleanupBucket c) c) as [c1|] eqn:Hs; simpl; [|done].
  destruct (deleteExpired_sweep_from_spec c b (map_to_list (entries b))
              (reachable_wf c Hc) Hb) as (c2 & Hc2 & _ & _ & _ & Httl2 & _);
    [done|].
  apply IH; [by eapply reachable_sweep|]. congruence.
Qed.

Lemma demo_swept_reachable : reachable demo_swept.
Proof.
  apply (sweeps_reachable 99 100 demo); [apply demo_reachable|done|].
  vm_compute. reflexivity.
Qed.



(** ** Invariants of the reachable states *)

Lemma call_Len (o : op) (now : Z) (c c' : LRU) :
  wf c → 1 ≤ cap c → Z.of_nat (Len c) ≤ cap c → call o now c = Some c' →
  Z.of_nat (Len c') ≤ cap c.
Proof.
  intros Hwf Hcap Hlen Hc. destruct o as [key value|key|key| |]; simpl in Hc.
  - by destruct (Add_Len key value now c c' Hwf Hcap Hlen Hc).
  - destruct (Get_spec key now c Hwf)
      as [[_ HG]|(e & it & _ & _ & _ & _ & HG)]; rewrite HG in Hc.
    + by injection Hc as <-.
    + destruct (time.After now (ExpiresAt it)); by injection Hc as <-.
  - destruct (Remove_spec key c Hwf)
      as [[_ HR]|(e & it & b & Hk & _ & _ & _ & _ & HR & _)];
      rewrite HR in Hc; injection Hc as <-; [done|].
    unfold Len in *. simpl. rewrite map_size_delete_Some by eauto. lia.
  - destruct (RemoveOldest_spec c Hwf)
      as [[_ HR]|(q & e & it & b & _ & _ & Hk & _ & _ & HR & _)];
      rewrite HR in Hc; injection Hc as <-; [done|].
    unfold Len in *. simpl. rewrite map_size_delete_Some by eauto. lia.
  - destruct (Purge_spec c Hwf) as [HP _]. rewrite HP in Hc.
    injection Hc as <-. unfold Len. simpl. rewrite map_size_empty. lia.
Qed.

(** The capacity and the TTL of a reachable state are not negative, and with
    a capacity of at least 1 the number of live entries is at most the
    capacity, whatever calls and sweep steps led to the state. *)
Theorem reachable_capacity (c : LRU) :
  reachable c →
  0 ≤ cap c ∧ 0 ≤ ttl c ∧ (1 ≤ cap c → Z.of_nat (Len c) ≤ cap c).
Proof.
  induction 1 as [cap0 ttl0|c o now c' Hr IH Hc|c b l c' Hr IH _ Hb Hl Hs].
  - unfold Len. simpl. rewrite map_size_empty.
    destruct (Z.ltb_spec cap0 0), (Z.ltb_spec ttl0 0); lia.
  - pose proof (reachable_wf c Hr) as Hwf.
    destruct (call_config o now c c' Hwf Hc) as (Hcap & Httl & _).
    rewrite Hcap, Httl. destruct IH as (? & ? & IH). split_and!; try done.
    intros Hge. by apply (call_Len o now c c' Hwf Hge (IH Hge)).
  - pose proof (reachable_wf c Hr) as Hwf.
    pose proof (wf_cursor c (proj1 Hwf)) as Hcur.
    destruct (deleteExpired_sweep_from_spec c b l Hwf Hb Hl)
      as (c2 & Hc2 & _ & _ & Hcap & Httl & _).
    assert (c2 = c') as -> by congruence.
    rewrite Hcap, Httl. destruct IH as (? & ? & IH). split_and!; try done.
    intros Hge. etrans; [|exact (IH Hge)].
    unfold deleteExpired_sweep_from in Hs.
    destruct (deleteExpired_loop (nextCleanupBucket c) l c) as [c1|] eqn:Hloop;
      simpl in Hs; [|done].
    injection Hs as <-. unfold Len. simpl.
    rewrite <- (Z2Nat.id (nextCleanupBucket c)) in Hloop by lia.
    assert (Hlt : (Z.to_nat (nextCleanupBucket c) < Z.to_nat numBuckets)%nat)
      by (unfold numBuckets in *; lia).
    destruct (deleteExpired_loop_frame _ l c c1 Hwf Hlt)
      as (_ & _ & _ & Hsub & _); [|exact Hloop|].
    { intros k e b2 e' Hin Hb2 Hl2. rewrite Hl in Hin.
      apply elem_of_map_to_list in Hin. congruence. }
    apply inj_le, map_subseteq_size, map_subseteq_spec. exact Hsub.
Qed.

Lemma reachable_capacity_witness : Z.of_nat (Len demo_swept) ≤ cap demo_swept.
Proof.
  apply (reachable_capacity demo_swept demo_swept_reachable).
  vm_compute. discriminate.
Defined.

(** In every reachable state: there are 100 buckets and the cursor is the
    index of one of them; the recency queue has no duplicate and as many
    entries as the Key Index; the Key Index maps each key to the entry of the
    queue whose cell carries that key; every live entry is a member, under
    its key, of the bucket its [ExpireBucket] names and of no other; and every
    member of a bucket is a live entry. *)
Theorem reachable_representation (c : LRU) :
  reachable c →
  length (buckets c) = 100%nat ∧ 0 ≤ nextCleanupBucket c < 100 ∧
  NoDup (queue c) ∧ length (queue c) = Len c ∧
  (∀ k e, items c !! k = Some e ↔
          e ∈ queue c ∧ ∃ it, heap c !! e = Some it ∧ Key it = k) ∧
  (∀ k e, items c !! k = Some e →
     ∃ it b, heap c !! e = Some it ∧
             buckets c !! Z.to_nat (ExpireBucket it) = Some b ∧
             entries b !! k = Some e ∧
             ∀ j b', buckets c !! j = Some b' → is_Some (entries b' !! k) →
                     j = Z.to_nat (ExpireBucket it)) ∧
  (∀ i b k e, buckets c !! i = Some b → entries b !! k = Some e →
              items c !! k = Some e).
Proof.
  intros Hwf%reachable_wf. pose proof Hwf as [Hc Hm]. split_and!.
  - apply (wf_buckets_len c Hc).
  - apply (wf_cursor c Hc).
  - apply (wf_cursor c Hc).
  - apply (wf_queue_nodup c Hc).
  - by apply wf_queue_length.
  - intros k e. split; [apply (wf_items c Hc)|].
    intros [He (it & Hit & <-)].
    destruct (wf_queue c Hc e He) as (it' & Hit' & Hi). congruence.
  - intros k e Hk. destruct (Hm k e Hk) as (it & b & Hit & Hb & Hl).
    exists it, b. split_and!; try done.
    intros j b' Hb' [e' Hl'].
    destruct (wf_entries c Hc j b' k e' Hb' Hl') as [Hi (it' & Hit' & Hx & _)].
    assert (e' = e) as -> by congruence.
    assert (it' = it) as -> by congruence. rewrite Hx. by rewrite Nat2Z.id.
  - intros i b k e Hb Hl. by destruct (wf_entries c Hc i b k e Hb Hl).
Qed.

Lemma reachable_representation_witness :
  length (buckets demo_swept) = 100%nat ∧
  0 ≤ nextCleanupBucket demo_swept < 100 ∧
  NoDup (queue demo_swept) ∧ length (queue demo_swept) = Len demo_swept ∧
  (∀ k e, items demo_swept !! k = Some e ↔
          e ∈ queue demo_swept ∧
          ∃ it, heap demo_swept !! e = Some it ∧ Key it = k) ∧
  (∀ k e, items demo_swept !! k = Some e →
     ∃ it b, heap demo_swept !! e = Some it ∧
             buckets demo_swept !! Z.to_nat (ExpireBucket it) = Some b ∧
             entries b !! k = Some e ∧
             ∀ j b', buckets demo_swept !! j = Some b' →
                     is_Some (entries b' !! k) →
                     j = Z.to_nat (ExpireBucket it)) ∧
  (∀ i b k e, buckets demo_swept !! i = Some b → entries b !! k = Some e →
              items demo_swept !! k = Some e).
Proof. apply (reachable_representation demo_swept demo_swept_reachable). Defined.

(** ** Insertion and eviction *)

(** The insert path of [Add] when nothing is evicted: the cache is not at
    capacity, or it is empty. *)
Lemma Add_insert_no_evict (key : string) (value : any) (now : Z) (c : LRU) :
  wf c → items c !! key = None →
  Z.of_nat (Len c) ≠ cap c ∨ queue c = [] →
  ∃ c' e, Add key value now c = Some c' ∧ wf c' ∧ heap c !! e = None ∧
          items c' = <[key := e]> (items c) ∧ queue c' = e :: queue c ∧
          heap c' = <[e := mkItem key value (now + ttl c) (bucketId c)]>
                      (heap c).
Proof.
  intros Hwf Hk Hcase.
  destruct (Add_insert_spec key value now c Hwf Hk)
    as (c1 & b & Hc1 & _ & _ & He & _ & HA & Hwf').
  assert (c1 = c) as ->.
  { destruct (Z.eqb_spec (Z.of_nat (size (items c))) (cap c)) as [Heq|Hne];
      [|congruence].
    destruct Hcase as [Hne|Hq]; [done|].
    unfold removeOldest in Hc1. rewrite Hq in Hc1. simpl in Hc1. congruence. }
  eexists _, _. split; [exact HA|]. split_and!; try done.
  simpl. apply insert_insert_eq.
Qed.

(** The insert path of [Add] at capacity on a non-empty cache: the entry at
    the back of the queue is evicted. *)
Lemma Add_insert_evict (key : string) (value : any) (now : Z) (c : LRU)
    (q : list positive) (e0 : positive) :
  wf c → items c !! key = None → Z.of_nat (Len c) = cap c →
  queue c = q ++ [e0] →
  ∃ c' e it0,
    Add key value now c = Some c' ∧ wf c' ∧ heap c !! e = None ∧
    heap c !! e0 = Some it0 ∧ items c !! Key it0 = Some e0 ∧
    items c' = <[key := e]> (delete (Key it0) (items c)) ∧
    queue c' = e :: q ∧
    heap c' = <[e := mkItem key value (now + ttl c) (bucketId c)]> (heap c).
Proof.
  intros Hwf Hk Hfull Hq.
  destruct (Add_insert_spec key value now c Hwf Hk)
    as (c1 & b & Hc1 & _ & _ & He & _ & HA & Hwf').
  unfold Len in Hfull. apply Z.eqb_eq in Hfull. rewrite Hfull in Hc1.
  destruct (removeOldest_spec c Hwf)
    as [[Hq' _]|(q' & e' & it & b1 & Hq' & Hit & Hi & _ & _ & Hr & _)].
  { rewrite Hq in Hq'. by destruct q. }
  rewrite Hq in Hq'. apply app_inj_tail in Hq' as [<- <-].
  rewrite Hr in Hc1. injection Hc1 as <-.
  eexists _, _, it. split; [exact HA|]. split_and!; try done.
  - simpl. f_equal. rewrite Hq. apply Remove_back. rewrite <- Hq.
    apply (wf_queue_nodup c (proj1 Hwf)).
  - simpl. apply insert_insert_eq.
Qed.

(** [Add] of a key that is not in the Key Index, in a reachable state.  A new
    cell is allocated for the entry and no other cell is written.  When the
    number of live entries differs from the capacity, or the cache is empty
    (capacity 0), nothing is evicted: the entry is pushed to the front of
    the queue and the number of live entries grows by one.  When the number
    of live entries equals the capacity and the queue ends with [e0], the key
    of [e0] leaves the Key Index, whatever its [ExpiresAt], [e0] leaves the
    queue, the new entry is pushed to the front and the number of live
    entries is unchanged. *)
Theorem Add_new_key (key : string) (value : any) (now : Z) (c : LRU) :
  reachable c → items c !! key = None →
  ∃ c',
    Add key value now c = Some c' ∧
    (Z.of_nat (Len c) ≠ cap c ∨ queue c = [] →
     ∃ e, heap c !! e = None ∧
          heap c' = <[e := mkItem key value (now + ttl c) (bucketId c)]>
                      (heap c) ∧
          items c' = <[key := e]> (items c) ∧
          queue c' = e :: queue c ∧ Len c' = S (Len c)) ∧
    (Z.of_nat (Len c) = cap c → ∀ q e0, queue c = q ++ [e0] →
     ∃ e it0, heap c !! e = None ∧
          heap c' = <[e := mkItem key value (now + ttl c) (bucketId c)]>
                      (heap c) ∧
          heap c !! e0 = Some it0 ∧ items c !! Key it0 = Some e0 ∧
          items c' = <[key := e]> (delete (Key it0) (items c)) ∧
          queue c' = e :: q ∧ Len c' = Len c).
Proof.
  intros Hwf%reachable_wf Hk.
  destruct (wf_Add key value now c Hwf) as (c' & HA & _).
  exists c'. split; [done|]. split.
  - intros Hcase.
    destruct (Add_insert_no_evict key value now c Hwf Hk Hcase)
      as (c2 & e & HA2 & _ & He & Hi & Hq & Hh).
    assert (c2 = c') as -> by congruence.
    exists e. split_and!; try done.
    unfold Len. rewrite Hi. by apply map_size_insert_None.
  - intros Hfull q e0 Hq.
    destruct (Add_insert_evict key value now c q e0 Hwf Hk Hfull Hq)
      as (c2 & e & it0 & HA2 & _ & He & Hit0 & Hi0 & Hi & Hq' & Hh).
    assert (c2 = c') as -> by congruence.
    exists e, it0. split_and!; try done.
    unfold Len. rewrite Hi.
    rewrite map_size_insert_None by (rewrite lookup_delete_None; by right).
    rewrite map_size_delete_Some by eauto.
    assert (size (items c) ≠ 0%nat)
      by (apply (map_size_ne_0_lookup_2 _ (Key it0)); eauto).
    lia.
Qed.

Lemma Add_new_key_witness :
  ∃ c',
    Add "C" (IntVal 3) 30 demo = Some c' ∧
    ∃ e it0, heap demo !! e = None ∧
             heap demo !! 1%positive = Some it0 ∧
             items c' = <[ "C"%string := e]> (delete (Key it0) (items demo)) ∧
             queue c' = [e; 2%positive] ∧ Len c' = Len demo.
Proof.
  destruct (Add_new_key "C" (IntVal 3) 30 demo demo_reachable)
    as (c' & HA & _ & Hev); [vm_compute; reflexivity|].
  destruct (Hev ltac:(vm_compute; reflexivity) [2%positive] 1%positive)
    as (e & it0 & He & _ & Hit0 & _ & Hi & Hq & Hl);
    [vm_compute; reflexivity|].
  exists c'. split; [exact HA|]. exists e, it0. split_and!; done.
Defined.

(** An [Add] leaves the other keys' entries as they are: a key other than
    the added one that is in the Key Index afterwards was there before with
    the same entry, and the cell of that entry (value, [ExpiresAt], bucket)
    is unchanged. *)
Theorem Add_keeps_other_entries (key key' : string) (value : any) (now : Z)
    (c c' : LRU) (e' : positive) :
  reachable c → Add key value now c = Some c' → key' ≠ key →
  items c' !! key' = Some e' →
  items c !! key' = Some e' ∧ heap c' !! e' = heap c !! e'.
Proof.
  intros Hwf%reachable_wf HA Hne Hk'.
  destruct (items c !! key) as [e|] eqn:Hk.
  - destruct (Add_update_spec key value now e c Hwf Hk)
      as (it & b0 & b & _ & _ & _ & _ & _ & HA' & _).
    rewrite HA' in HA. injection HA as <-. simpl in *. split; [done|].
    assert (e' ≠ e).
    { intros ->. by apply Hne, (wf_items_inj c key' key e (proj1 Hwf)). }
    by rewrite !lookup_insert_ne.
  - destruct (Add_insert_spec key value now c Hwf Hk)
      as (c1 & b & Hc1 & Hwf1 & _ & He & _ & HA' & _).
    rewrite HA' in HA. injection HA as <-. simpl in *.
    rewrite lookup_insert_ne in Hk' by done.
    assert (He' : fresh (dom (heap c1)) ≠ e').
    { intros Heq. destruct (wf_items c1 (proj1 Hwf1) _ _ Hk') as [_ (it & ? & _)].
      congruence. }
    rewrite !lookup_insert_ne by done.
    destruct (Z.of_nat (size (items c)) =? cap c);
      [|injection Hc1 as <-; done].
    destruct (removeOldest_spec c Hwf)
      as [[_ Hr]|(q & e0 & it & b1 & _ & _ & _ & _ & _ & Hr & _)];
      rewrite Hr in Hc1; injection Hc1 as <-; [done|].
    simpl in *. by apply lookup_delete_Some in Hk' as [_ ?].
Qed.

Lemma Add_keeps_other_entries_witness :
  ∃ c', Add "A" (IntVal 7) 30 demo = Some c' ∧
        items demo !! "B"%string = Some 2%positive ∧
        heap c' !! 2%positive = heap demo !! 2%positive.
Proof.
  destruct (Add "A" (IntVal 7) 30 demo) as [c'|] eqn:HA;
    [|by vm_compute in HA].
  exists c'. split; [done|].
  apply (Add_keeps_other_entries "A" "B" (IntVal 7) 30 demo c' 2%positive
           demo_reachable HA); [discriminate|].
  vm_compute in HA. injection HA as <-. vm_compute. reflexivity.
Defined.

(** With a capacity of at least 2, the key whose entry is at the front of
    the recency queue (the key last touched by [Add] or by a [Get] that
    found it) is still in the Key Index, with its cell unchanged, after an
    [Add] of any other key. *)
Theorem most_recent_survives (key key2 : string) (value : any) (now : Z)
    (c : LRU) (e : positive) (rest : list positive) :
  reachable c → 2 ≤ cap c → queue c = e :: rest → items c !! key = Some e →
  key2 ≠ key →
  ∃ c', Add key2 value now c = Some c' ∧ items c' !! key = Some e ∧
        heap c' !! e = heap c !! e.
Proof.
  intros Hwf%reachable_wf Hcap Hq Hk Hne.
  pose proof (wf_queue_length c Hwf) as Hlen.
  destruct (items c !! key2) as [e2|] eqn:Hk2.
  - destruct (Add_update_spec key2 value now e2 c Hwf Hk2)
      as (it & b0 & b & _ & _ & _ & _ & _ & HA & _).
    eexists. split; [exact HA|]. simpl. split; [done|].
    assert (e ≠ e2).
    { intros ->. by apply Hne, (wf_items_inj c key2 key e2 (proj1 Hwf)). }
    by rewrite !lookup_insert_ne.
  - destruct (decide (Z.of_nat (Len c) = cap c)) as [Hfull|Hnot].
    + destruct rest as [|e0 q _] using rev_ind.
      { rewrite Hq in Hlen. simpl in Hlen. lia. }
      destruct (Add_insert_evict key2 value now c (e :: q) e0 Hwf Hk2 Hfull)
        as (c' & e' & it0 & HA & _ & He' & Hit0 & Hi0 & Hi & _ & Hh); [done|].
      exists c'. split; [done|]. rewrite Hi, Hh.
      assert (e0 ≠ e).
      { pose proof (wf_queue_nodup c (proj1 Hwf)) as Hnd. rewrite Hq in Hnd.
        apply NoDup_cons in Hnd as [Hnin _]. intros ->. apply Hnin.
        apply elem_of_app. right. by left. }
      assert (Key it0 ≠ key) by (intros Heq; rewrite Heq in Hi0; congruence).
      rewrite lookup_insert_ne by done. rewrite lookup_delete_ne by done.
      split; [done|]. rewrite lookup_insert_ne; [done|].
      intros ->. destruct (wf_items c (proj1 Hwf) key e Hk) as [_ (? & ? & _)].
      congruence.
    + destruct (Add_insert_no_evict key2 value now c Hwf Hk2 (or_introl Hnot))
        as (c' & e' & HA & _ & He' & Hi & _ & Hh).
      exists c'. split; [done|]. rewrite Hi, Hh.
      rewrite lookup_insert_ne by done. split; [done|].
      rewrite lookup_insert_ne; [done|].
      intros ->. destruct (wf_items c (proj1 Hwf) key e Hk) as [_ (? & ? & _)].
      congruence.
Qed.

Lemma most_recent_survives_witness :
  ∃ c', Add "C" (IntVal 3) 30 demo = Some c' ∧
        items c' !! "B"%string = Some 2%positive ∧
        heap c' !! 2%positive = heap demo !! 2%positive.
Proof.
  apply (most_recent_survives "B" "C" (IntVal 3) 30 demo 2%positive
           [1%positive] demo_reachable).
  - vm_compute. discriminate.
  - vm_compute. reflexivity.
  - vm_compute. reflexivity.
  - discriminate.
Defined.

(** With a capacity of 0 (or a negative one, which [NewLRU] takes as 0)
    nothing is ever evicted: after [Add]s of pairwise distinct keys on a
    fresh cache every key is in the Key Index and the number of live entries
    is the number of [Add]s. *)
Theorem capacity_zero_never_evicts (capacity ttl : Z)
    (l : list (string * any * Z)) :
  capacity ≤ 0 → NoDup (l.*1.*1) →
  ∃ c, run_adds l (NewLRU capacity ttl) = Some c ∧
       Len c = length l ∧
       ∀ k, k ∈ l.*1.*1 → is_Some (items c !! k).
Proof.
  intros Hcap Hnd.
  assert (Hgen : ∀ l c, wf c → cap c = 0 → NoDup (l.*1.*1) →
            (∀ k, k ∈ l.*1.*1 → items c !! k = None) →
            ∃ c', run_adds l c = Some c' ∧
                  Len c' = (Len c + length l)%nat ∧
                  ∀ k, is_Some (items c' !! k) ↔
                       is_Some (items c !! k) ∨ k ∈ l.*1.*1).
  { clear. induction l as [|[[k v] now] l IH]; intros c Hwf Hcap Hnd Hnew;
      simpl.
    - exists c. split_and!; [done|lia|]. intros k. rewrite elem_of_nil. tauto.
    - apply NoDup_cons in Hnd as [Hk Hnd].
      destruct (Add_insert_no_evict k v now c Hwf) as
        (c1 & e & HA & Hwf1 & _ & Hi & Hq & _).
      { apply Hnew. by left. }
      { destruct (decide (Len c = 0%nat)) as [H0|H0]; [|left; lia].
        right. apply length_zero_iff_nil. by rewrite wf_queue_length. }
      rewrite HA. simpl.
      destruct (IH c1 Hwf1) as (c' & Hr & Hl & Hdom); [| done |..].
      + destruct (call_config (OpAdd k v) now c c1 Hwf HA) as [-> _]. done.
      + intros k' Hk'. rewrite Hi.
        rewrite lookup_insert_ne by (intros <-; done). apply Hnew. by right.
      + exists c'. split; [done|]. split.
        * rewrite Hl. unfold Len. rewrite Hi.
          rewrite map_size_insert_None by (apply Hnew; by left). lia.
        * intros k'. rewrite Hdom, Hi, elem_of_cons.
          destruct (decide (k = k')) as [->|Hne].
          -- rewrite lookup_insert_eq. split; [auto|]. intros _. left. eauto.
          -- rewrite lookup_insert_ne by done. split; [tauto|].
             intros [?|[?|?]]; [tauto|congruence|tauto]. }
  destruct (Hgen l (NewLRU capacity ttl)) as (c & Hr & Hl & Hdom).
  - apply wf_NewLRU.
  - simpl. destruct (Z.ltb_spec capacity 0); lia.
  - done.
  - intros k _. apply lookup_empty.
  - exists c. split; [done|]. split.
    + rewrite Hl. unfold Len, NewLRU. cbn [items]. by rewrite map_size_empty.
    + intros k Hk. apply Hdom. by right.
Qed.

Lemma capacity_zero_never_evicts_witness :
  ∃ c, run_adds [("A"%string, IntVal 1, 10); ("B"%string, IntVal 2, 11);
                 ("C"%string, IntVal 3, 12)] (NewLRU 0 5) = Some c ∧
       Len c = 3%nat ∧
       ∀ k, k ∈ ["A"%string; "B"%string; "C"%string] → is_Some (items c !! k).
Proof.
  apply (capacity_zero_never_evicts 0 5
           [("A"%string, IntVal 1, 10); ("B"%string, IntVal 2, 11);
            ("C"%string, IntVal 3, 12)]).
  - lia.
  - apply (bool_decide_unpack _). vm_compute. exact I.
Defined.

(** ** Bucket timestamps only grow *)

Lemma newest_le_refl (bs : list bucket) : newest_le bs bs.
Proof. apply Forall_Forall2_diag, Forall_forall. intros; lia. Qed.

Lemma newest_le_trans (bs1 bs2 bs3 : list bucket) :
  newest_le bs1 bs2 → newest_le bs2 bs3 → newest_le bs1 bs3.
Proof. apply Forall2_trans. intros; lia. Qed.

Lemma newest_le_insert (bs : list bucket) (i : nat) (b x : bucket) :
  bs !! i = Some b → newestEntry b ≤ newestEntry x →
  newest_le bs (<[i := x]> bs).
Proof.
  intros Hb Hle. rewrite <- (list_insert_id bs i b Hb) at 1.
  apply Forall2_insert; [apply newest_le_refl|done].
Qed.

Lemma newest_le_removed (k : string) (e : positive) (it : Item) (b : bucket)
    (c : LRU) :
  buckets c !! Z.to_nat (ExpireBucket it) = Some b →
  newest_le (buckets c) (buckets (removed k e it b c)).
Proof. intros Hb. simpl. by apply (newest_le_insert _ _ b). Qed.

Lemma newest_le_added (e : positive) (it : Item) (b : bucket) (c : LRU) :
  buckets c !! Z.to_nat (bucketId c) = Some b →
  newest_le (buckets c) (buckets (added e it b c)).
Proof.
  intros Hb. simpl. apply (newest_le_insert _ _ b); [done|]. simpl.
  rewrite newest_raise. lia.
Qed.

Lemma call_newest_le (o : op) (now : Z) (c c' : LRU) :
  wf c → call o now c = Some c' → newest_le (buckets c) (buckets c').
Proof.
  intros Hwf Hc. destruct o as [key value|key|key| |]; simpl in Hc.
  - destruct (items c !! key) as [e|] eqn:Hk.
    + destruct (Add_update_spec key value now e c Hwf Hk)
        as (it & b0 & b & _ & _ & Hb0 & _ & Hb & HA & _).
      rewrite HA in Hc. injection Hc as <-.
      eapply newest_le_trans; [|by apply newest_le_added].
      simpl. by apply (newest_le_insert _ _ b0).
    + destruct (Add_insert_spec key value now c Hwf Hk)
        as (c1 & b & Hc1 & _ & _ & _ & Hb & HA & _).
      rewrite HA in Hc. injection Hc as <-.
      eapply newest_le_trans; [|by apply newest_le_added].
      simpl. destruct (Z.of_nat (size (items c)) =? cap c);
        [|injection Hc1 as <-; apply newest_le_refl].
      destruct (removeOldest_spec c Hwf)
        as [[_ Hr]|(q & e & it & b1 & _ & _ & _ & Hb1 & _ & Hr & _)];
        rewrite Hr in Hc1; injection Hc1 as <-;
        [apply newest_le_refl|by apply newest_le_removed].
  - destruct (Get_spec key now c Hwf)
      as [[_ HG]|(e & it & _ & _ & _ & _ & HG)]; rewrite HG in Hc.
    + injection Hc as <-. apply newest_le_refl.
    + destruct (time.After now (ExpiresAt it)); injection Hc as <-;
        apply newest_le_refl.
  - destruct (Remove_spec key c Hwf)
      as [[_ HR]|(e & it & b & _ & _ & _ & Hb & _ & HR & _)];
      rewrite HR in Hc; injection Hc as <-;
      [apply newest_le_refl|by apply newest_le_removed].
  - destruct (RemoveOldest_spec c Hwf)
      as [[_ HR]|(q & e & it & b & _ & _ & _ & Hb & _ & HR & _)];
      rewrite HR in Hc; injection Hc as <-;
      [apply newest_le_refl|by apply newest_le_removed].
  - destruct (Purge_spec c Hwf) as [HP _]. rewrite HP in Hc.
    injection Hc as <-. simpl. apply Forall2_fmap_r, Forall_Forall2_diag.
    apply Forall_forall. intros; simpl; lia.
Qed.

(** No call and no sweep step lowers the [newestEntry] of a bucket: it is
    raised by [addToBucket] and never reset, not even when [Purge] or a sweep
    empties the bucket. *)
Theorem newestEntry_never_decreases (c : LRU) :
  reachable c →
  (∀ o now c', call o now c = Some c' → newest_le (buckets c) (buckets c')) ∧
  (∀ b l c', buckets c !! Z.to_nat (nextCleanupBucket c) = Some b →
             l ≡ₚ map_to_list (entries b) →
             deleteExpired_sweep_from l (nextCleanupBucket c) c = Some c' →
             newest_le (buckets c) (buckets c')).
Proof.
  intros Hwf%reachable_wf. split.
  - intros o now c'. by apply call_newest_le.
  - intros b l c' Hb Hl Hs. pose proof (wf_cursor c (proj1 Hwf)) as Hcur.
    destruct (deleteExpired_sweep_from_spec c b l Hwf Hb Hl)
      as (c2 & Hc2 & Hwf' & _).
    assert (c2 = c') as -> by congruence.
    unfold deleteExpired_sweep_from in Hs.
    destruct (deleteExpired_loop (nextCleanupBucket c) l c) as [c1|] eqn:Hloop;
      simpl in Hs; [|done].
    injection Hs as <-. simpl.
    rewrite <- (Z2Nat.id (nextCleanupBucket c)) in Hloop by lia.
    assert (Hlt : (Z.to_nat (nextCleanupBucket c) < Z.to_nat numBuckets)%nat)
      by (unfold numBuckets in *; lia).
    destruct (deleteExpired_loop_frame _ l c c1 Hwf Hlt)
      as (_ & Ho & Hne & _); [|exact Hloop|].
    { intros k e b2 e' Hin Hb2 Hl2. rewrite Hl in Hin.
      apply elem_of_map_to_list in Hin. congruence. }
    apply Forall2_same_length_lookup. split.
    + pose proof (wf_buckets_len _ (proj1 Hwf')) as H1. simpl in H1.
      by rewrite H1, (wf_buckets_len c (proj1 Hwf)).
    + intros i b1 b2 Hb1 Hb2.
      destruct (decide (i = Z.to_nat (nextCleanupBucket c))) as [->|Hi].
      * rewrite (Hne _ _ Hb1 Hb2). lia.
      * rewrite (Ho i Hi) in Hb2. assert (b1 = b2) as -> by congruence. lia.
Qed.

Lemma newestEntry_never_decreases_witness :
  (∀ o now c', call o now demo_swept = Some c' →
               newest_le (buckets demo_swept) (buckets c')) ∧
  (∀ b l c',
     buckets demo_swept !! Z.to_nat (nextCleanupBucket demo_swept) = Some b →
     l ≡ₚ map_to_list (entries b) →
     deleteExpired_sweep_from l (nextCleanupBucket demo_swept) demo_swept
       = Some c' →
     newest_le (buckets demo_swept) (buckets c')).
Proof.
  apply (newestEntry_never_decreases demo_swept demo_swept_reachable).
Defined.

(** ** Remove *)

(** [Remove key] in a reachable state does not panic.  For a key that is not
    in the Key Index it returns [false] and changes nothing.  For a key with
    entry [e] it returns [true]; afterwards the key is in no map (Key Index
    or bucket), [e] has left the queue and the other entries keep their
    order, there is one live entry less, [Get key] reports the key absent,
    and [Get] of any other key returns what it returned before. *)
Theorem Remove_contract (key : string) (c : LRU) :
  reachable c →
  (items c !! key = None → Remove key c = Some (false, c)) ∧
  (∀ e, items c !! key = Some e →
     ∃ c', Remove key c = Some (true, c') ∧
           items c' = delete key (items c) ∧
           queue c' = clist.Remove e (queue c) ∧
           (∀ i b, buckets c' !! i = Some b → entries b !! key = None) ∧
           Len c' = pred (Len c) ∧
           (∀ now, Get key now c' = Some (nil, false, c')) ∧
           (∀ key' now, key' ≠ key →
              fst <$> Get key' now c' = fst <$> Get key' now c)).
Proof.
  intros Hwf%reachable_wf. split.
  - intros Hk. unfold Remove. by rewrite Hk.
  - intros e Hk. destruct (Remove_spec key c Hwf)
      as [[Hn _]|(e' & it & b & Hk' & Hit & HK & Hb & Hl & HR & Hwf')];
      [congruence|].
    assert (e' = e) as -> by congruence.
    eexists. split; [exact HR|]. split_and!; simpl; try done.
    + intros i b2 Hb2.
      destruct (entries b2 !! key) as [e2|] eqn:Hl2; [|done].
      destruct (wf_entries _ (proj1 Hwf') i b2 _ e2 Hb2 Hl2) as [Hi2 _].
      simpl in Hi2. by rewrite lookup_delete_eq in Hi2.
    + unfold Len. simpl. apply map_size_delete_Some. eauto.
    + intros now. apply Get_absent. simpl. apply lookup_delete_eq.
    + intros key' now Hne. unfold Get. simpl.
      rewrite lookup_delete_ne by done.
      destruct (items c !! key') as [e2|]; [|done].
      destruct (heap c !! e2) as [it2|]; simpl; [|done].
      by destruct (time.After now (ExpiresAt it2)).
Qed.

Lemma Remove_contract_witness :
  ∃ c', Remove "A" demo = Some (true, c') ∧
        items c' = delete "A"%string (items demo) ∧
        queue c' = [2%positive] ∧
        Get "B" 22 c' = Some (IntVal 2, true, c').
Proof.
  destruct (Remove_contract "A" demo demo_reachable) as [_ H].
  destruct (H 1%positive) as (c' & HR & Hi & Hq & _);
    [vm_compute; reflexivity|].
  exists c'. split_and!; [exact HR|exact Hi|rewrite Hq; vm_compute; reflexivity|].
  vm_compute in HR. injection HR as <-. vm_compute. reflexivity.
Defined.

(** ** Get does not renew an entry *)

(** A [Get] that finds an entry leaves its [ExpiresAt] as it is: whatever
    [Get key] returned at [now], a [Get key] at an instant after the
    [ExpiresAt] the entry had before reports the key absent. *)
Theorem Get_does_not_extend_ttl (key : string) (now now' : Z) (c c' : LRU)
    (e : positive) (it : Item) (r : any * bool) :
  reachable c → items c !! key = Some e → heap c !! e = Some it →
  Get key now c = Some (r, c') → ExpiresAt it < now' →
  Get key now' c' = Some (nil, false, c').
Proof.
  intros Hwf%reachable_wf Hk Hit HG Hlt. unfold Get in HG.
  rewrite Hk in HG. simpl in HG. rewrite Hit in HG. simpl in HG.
  destruct (time.After now (ExpiresAt it)); injection HG as <- <-;
    by apply (Get_expired key now' _ e it).
Qed.

Lemma Get_does_not_extend_ttl_witness :
  ∃ c', Get "A" 12 demo = Some ((IntVal 1, true), c') ∧
        Get "A" 16 c' = Some (nil, false, c').
Proof.
  destruct (Get "A" 12 demo) as [[r c']|] eqn:HG; [|by vm_compute in HG].
  assert (r = (IntVal 1, true)) as ->.
  { vm_compute in HG. by injection HG as <- _. }
  exists c'. split; [done|].
  apply (Get_does_not_extend_ttl "A" 12 16 demo c' 1%positive
           (mkItem "A" (IntVal 1) 15 99) (IntVal 1, true) demo_reachable).
  - vm_compute. reflexivity.
  - vm_compute. reflexivity.
  - exact HG.
  - simpl. lia.
Defined.

(** ** The constructor *)


(** ** Instances of the round trips *)


Lemma Add_Remove_Remove_witness :
  ∃ c1 c2, Add "C" (IntVal 3) 30 demo = Some c1 ∧
           Remove "C" c1 = Some (true, c2) ∧ Remove "C" c2 = Some (false, c2).
Proof.
  destruct (Add "C" (IntVal 3) 30 demo) as [c1|] eqn:HA;
    [|by vm_compute in HA].
  destruct (Add_Remove_Remove "C" (IntVal 3) 30 demo c1 demo_reachable HA)
    as (c2 & H1 & H2).
  exists c1, c2. split; [reflexivity|]. split; [exact H1|exact H2].
Defined.

(** * Package [simple] *)

(** ** The invariant *)

Lemma simple_wf_NewLru (cap : Z) : simple_wf (simple.NewLru cap).
Proof.
  split_and!; simpl.
  - apply NoDup_nil_2.
  - intros k e Hk. by rewrite lookup_empty in Hk.
  - intros e He. by apply elem_of_nil in He.
Qed.

Lemma simple_wf_inj (c : simple.LRU) (k1 k2 : string) (e : positive) :
  simple_wf c → simple.items c !! k1 = Some e →
  simple.items c !! k2 = Some e → k1 = k2.
Proof.
  intros (_ & Hi & _) H1 H2.
  destruct (Hi k1 e H1) as [_ (it1 & Hh1 & <-)].
  destruct (Hi k2 e H2) as [_ (it2 & Hh2 & <-)]. congruence.
Qed.

Lemma simple_queue_length (c : simple.LRU) :
  simple_wf c → length (simple.queue c) = size (simple.items c).
Proof.
  intros Hwf. pose proof Hwf as (Hnd & Hi & Hq).
  rewrite <- length_map_to_list.
  rewrite <- (length_fmap snd). apply Permutation_length, NoDup_Permutation.
  - done.
  - apply NoDup_fmap_2_strong; [|apply NoDup_map_to_list].
    intros [k1 e1] [k2 e2] H1%elem_of_map_to_list H2%elem_of_map_to_list.
    simpl. intros <-. f_equal. by apply (simple_wf_inj c k1 k2 e1).
  - intros e. rewrite list_elem_of_fmap. split.
    + intros He. destruct (Hq e He) as (it & _ & Hk).
      exists (simple.Key it, e). split; [done|]. by apply elem_of_map_to_list.
    + intros ([k e'] & -> & Hin%elem_of_map_to_list).
      by destruct (Hi k e' Hin) as [? _].
Qed.

(** [purge] on a state that satisfies the invariant. *)
Lemma simple_purge_spec (c : simple.LRU) :
  simple_wf c →
  (simple.queue c = [] ∧ simple.purge c = Some c) ∨
  (∃ q e it,
      simple.queue c = q ++ [e] ∧ simple.heap c !! e = Some it ∧
      simple.items c !! simple.Key it = Some e ∧
      let c' := simple.mkLRU (simple.cap c)
                  (delete (simple.Key it) (simple.items c)) q
                  (simple.heap c) in
      simple.purge c = Some c' ∧ simple_wf c').
Proof.
  intros (Hnd & Hi & Hq). unfold simple.purge.
  destruct (clist.Back (simple.queue c)) as [e|] eqn:HB.
  - right. destruct (Back_Some _ _ HB) as [q Hqe].
    destruct (Hq e) as (it & Hit & Hk).
    { rewrite Hqe. apply elem_of_app. right. by left. }
    assert (HR : clist.Remove e (simple.queue c) = q).
    { rewrite Hqe. apply Remove_back. by rewrite <- Hqe. }
    exists q, e, it. rewrite Hit. simpl. rewrite HR.
    split; [done|]. split; [done|]. split; [done|]. split; [done|].
    assert (Hin : ∀ x, x ∈ q ↔ x ∈ simple.queue c ∧ x ≠ e).
    { intros x. rewrite <- HR. apply elem_of_Remove. }
    split_and!; simpl.
    + rewrite <- HR. by apply NoDup_Remove.
    + intros k e' [Hne Hk']%lookup_delete_Some.
      destruct (Hi _ _ Hk') as [He' Hcell]. split; [|done].
      apply Hin. split; [done|]. intros ->.
      destruct Hcell as (it' & ? & <-). congruence.
    + intros e' [He' Hne]%Hin. destruct (Hq e' He') as (it' & Hit' & Hk').
      exists it'. split; [done|]. rewrite lookup_delete_ne; [done|].
      intros Heq. rewrite Heq in Hk. congruence.
  - left. split; [by apply Back_None|done].
Qed.

(** [Set] of a key that is in the Key Index. *)
Lemma simple_Set_update_spec (key : string) (value : any) (e : positive)
    (c : simple.LRU) :
  simple_wf c → simple.items c !! key = Some e →
  ∃ it, simple.heap c !! e = Some it ∧ simple.Key it = key ∧
        let c' := simple.mkLRU (simple.cap c) (simple.items c)
                    (e :: clist.Remove e (simple.queue c))
                    (<[e := simple.mkItem key value]> (simple.heap c)) in
        simple.Set_ key value c = Some c' ∧ simple_wf c'.
Proof.
  intros (Hnd & Hi & Hq) Hk. destruct (Hi key e Hk) as [He (it & Hit & HK)].
  exists it. split_and!; try done. intros c'. split.
  { unfold simple.Set_. rewrite Hk, Hit. simpl.
    by rewrite HK, (MoveToFront_elem e _ He). }
  assert (Hin : ∀ x, x ∈ e :: clist.Remove e (simple.queue c)
                     ↔ x ∈ simple.queue c).
  { intros x. rewrite <- (MoveToFront_elem e _ He).
    apply elem_of_MoveToFront. }
  split_and!; simpl.
  - rewrite <- (MoveToFront_elem e _ He). by apply NoDup_MoveToFront.
  - intros k e' Hk'. destruct (Hi k e' Hk') as [He' (it' & Hit' & HK')].
    split; [by apply Hin|]. destruct (decide (e' = e)) as [->|Hne].
    + eexists. rewrite lookup_insert_eq. split; [done|]. simpl. congruence.
    + exists it'. by rewrite lookup_insert_ne.
  - intros e' He'%Hin. destruct (Hq e' He') as (it' & Hit' & Hk').
    destruct (decide (e' = e)) as [->|Hne].
    + eexists. rewrite lookup_insert_eq. split; [done|]. done.
    + exists it'. by rewrite lookup_insert_ne.
Qed.

(** [Set] of a key that is not in the Key Index. *)
Lemma simple_Set_insert_spec (key : string) (value : any) (c : simple.LRU) :
  simple_wf c → simple.items c !! key = None →
  ∃ c1,
    (if Z.of_nat (length (simple.queue c)) =? simple.cap c
     then simple.purge c else Some c) = Some c1 ∧
    simple_wf c1 ∧ simple.items c1 !! key = None ∧
    simple.cap c1 = simple.cap c ∧
    let e := fresh (dom (simple.heap c1)) in
    let c' := simple.mkLRU (simple.cap c1) (<[key := e]> (simple.items c1))
                (e :: simple.queue c1)
                (<[e := simple.mkItem key value]> (simple.heap c1)) in
    simple.heap c1 !! e = None ∧
    simple.Set_ key value c = Some c' ∧ simple_wf c'.
Proof.
  intros Hwf Hk.
  assert (∃ c1, (if Z.of_nat (length (simple.queue c)) =? simple.cap c
                 then simple.purge c else Some c) = Some c1 ∧
                simple_wf c1 ∧ simple.items c1 !! key = None ∧
                simple.cap c1 = simple.cap c)
    as (c1 & Hc1 & Hwf1 & Hk1 & Hcap).
  { destruct (Z.of_nat (length (simple.queue c)) =? simple.cap c); [|eauto].
    destruct (simple_purge_spec c Hwf)
      as [[_ Hp]|(q & e & it & _ & _ & _ & Hp & Hwf')]; [eauto|].
    eexists. split_and!; [done|done| |done]. simpl.
    rewrite lookup_delete_None. by right. }
  exists c1. split_and!; try done. intros e c'.
  assert (He : simple.heap c1 !! e = None).
  { apply not_elem_of_dom. apply is_fresh. }
  split_and!; [done| |].
  { unfold simple.Set_. rewrite Hk, Hc1. done. }
  destruct Hwf1 as (Hnd & Hi & Hq).
  assert (Hnq : e ∉ simple.queue c1).
  { intros Hin. destruct (Hq _ Hin) as (? & ? & _). congruence. }
  split_and!; simpl.
  - by apply NoDup_cons.
  - intros k e' [[<- <-]|[Hne Hk']]%lookup_insert_Some.
    + split; [by left|]. eexists. by rewrite lookup_insert_eq.
    + destruct (Hi _ _ Hk') as [He' (it' & Hit' & HK')].
      split; [by right|]. exists it'. rewrite lookup_insert_ne; [done|].
      intros <-. done.
  - intros e' [->|He']%elem_of_cons.
    + eexists. rewrite lookup_insert_eq. split; [done|]. simpl.
      by rewrite lookup_insert_eq.
    + destruct (Hq _ He') as (it' & Hit' & Hk'). exists it'.
      rewrite lookup_insert_ne by (intros <-; done). split; [done|].
      rewrite lookup_insert_ne; [done|]. intros Heq. congruence.
Qed.

Lemma simple_wf_Set (key : string) (value : any) (c : simple.LRU) :
  simple_wf c → ∃ c', simple.Set_ key value c = Some c' ∧ simple_wf c' ∧
                      simple.cap c' = simple.cap c.
Proof.
  intros Hwf. destruct (simple.items c !! key) as [e|] eqn:Hk.
  - destruct (simple_Set_update_spec key value e c Hwf Hk)
      as (it & _ & _ & HS & Hwf'). eauto.
  - destruct (simple_Set_insert_spec key value c Hwf Hk)
      as (c1 & _ & _ & _ & Hcap & _ & HS & Hwf'). eauto.
Qed.

Lemma simple_Get_spec (key : string) (c : simple.LRU) :
  simple_wf c →
  (simple.items c !! key = None ∧ simple.Get key c = Some (nil, c)) ∨
  (∃ e it,
      simple.items c !! key = Some e ∧ simple.heap c !! e = Some it ∧
      simple.Key it = key ∧
      let c' := simple.mkLRU (simple.cap c) (simple.items c)
                  (e :: clist.Remove e (simple.queue c)) (simple.heap c) in
      simple.Get key c = Some (simple.Value it, c') ∧ simple_wf c').
Proof.
  intros (Hnd & Hi & Hq). unfold simple.Get.
  destruct (simple.items c !! key) as [e|] eqn:Hk; [right|by left].
  destruct (Hi key e Hk) as [He (it & Hit & HK)].
  exists e, it. rewrite Hit. simpl. rewrite (MoveToFront_elem e _ He).
  split; [done|]. split; [done|]. split; [done|]. split; [done|].
  assert (Hin : ∀ x, x ∈ e :: clist.Remove e (simple.queue c)
                     ↔ x ∈ simple.queue c).
  { intros x. rewrite <- (MoveToFront_elem e _ He).
    apply elem_of_MoveToFront. }
  split_and!; simpl.
  - rewrite <- (MoveToFront_elem e _ He). by apply NoDup_MoveToFront.
  - intros k e' Hk'. destruct (Hi k e' Hk') as [He' Hcell].
    split; [by apply Hin|done].
  - intros e' He'%Hin. by apply Hq.
Qed.

Lemma simple_reachable_wf (c : simple.LRU) : simple_reachable c → simple_wf c.
Proof.
  induction 1 as [cap|c key value c' _ IH HS|c key r c' _ IH HG].
  - apply simple_wf_NewLru.
  - destruct (simple_wf_Set key value c IH) as (c2 & HS' & Hwf & _).
    congruence.
  - destruct (simple_Get_spec key c IH)
      as [[_ HG']|(e & it & _ & _ & _ & HG' & Hwf)]; congruence.
Qed.

Lemma run_sets_reachable (l : list (string * any)) (c c' : simple.LRU) :
  simple_reachable c → simple.run_sets l c = Some c' → simple_reachable c'.
Proof.
  revert c. induction l as [|[k v] l IH]; intros c Hc; simpl.
  - by intros [= <-].
  - destruct (simple.Set_ k v c) as [c1|] eqn:H1; simpl; [|done].
    apply IH. by eapply simple_reachable_Set.
Qed.

Lemma simple_demo_reachable : simple_reachable simple_demo.
Proof.
  apply (run_sets_reachable [("A"%string, IntVal 1); ("B"%string, IntVal 2)]
           (simple.NewLru 2)); [constructor|].
  vm_compute. reflexivity.
Qed.

(** ** Capacity *)

(** In every reachable state of a [simple] cache the queue has no duplicate
    and as many entries as the Key Index, and with a capacity of at least 1
    it never holds more entries than the capacity. *)
Theorem simple_capacity_bound (c : simple.LRU) :
  simple_reachable c →
  NoDup (simple.queue c) ∧
  length (simple.queue c) = size (simple.items c) ∧
  (1 ≤ simple.cap c → Z.of_nat (length (simple.queue c)) ≤ simple.cap c).
Proof.
  intros Hr. pose proof (simple_reachable_wf c Hr) as Hwf.
  split; [apply Hwf|]. split; [by apply simple_queue_length|].
  induction Hr as [cap|c key value c' Hr IH HS|c key r c' Hr IH HG].
  - simpl. lia.
  - pose proof (simple_reachable_wf c Hr) as Hwf0.
    pose proof (simple_queue_length c Hwf0) as Hlen.
    rewrite (simple_queue_length c' Hwf).
    destruct (simple.items c !! key) as [e|] eqn:Hk.
    + destruct (simple_Set_update_spec key value e c Hwf0 Hk)
        as (it & _ & _ & HS' & _).
      rewrite HS' in HS. injection HS as <-. simpl. rewrite <- Hlen. auto.
    + destruct (simple_Set_insert_spec key value c Hwf0 Hk)
        as (c1 & Hc1 & Hwf1 & Hk1 & Hcap & _ & HS' & _).
      rewrite HS' in HS. injection HS as <-. simpl. rewrite Hcap.
      intros Hge. specialize (IH Hwf0 Hge).
      rewrite map_size_insert_None by done.
      destruct (Z.eqb_spec (Z.of_nat (length (simple.queue c))) (simple.cap c))
        as [Heq|Hne].
      * destruct (simple_purge_spec c Hwf0)
          as [[Hq _]|(q & e & it & _ & _ & Hi & Hp & _)].
        { rewrite Hq in Heq. simpl in Heq. lia. }
        rewrite Hp in Hc1. injection Hc1 as <-. simpl.
        rewrite map_size_delete_Some by eauto. lia.
      * injection Hc1 as <-. lia.
  - pose proof (simple_reachable_wf c Hr) as Hwf0.
    destruct (simple_Get_spec key c Hwf0)
      as [[_ HG']|(e & it & _ & _ & _ & HG' & _)];
      rewrite HG' in HG; injection HG as _ <-; [by apply IH|].
    rewrite (simple_queue_length _ Hwf). simpl.
    rewrite <- (simple_queue_length c Hwf0). by apply IH.
Qed.

Lemma simple_capacity_bound_witness :
  NoDup (simple.queue simple_demo) ∧
  length (simple.queue simple_demo) = size (simple.items simple_demo) ∧
  (1 ≤ simple.cap simple_demo →
   Z.of_nat (length (simple.queue simple_demo)) ≤ simple.cap simple_demo).
Proof. apply (simple_capacity_bound simple_demo simple_demo_reachable). Defined.

(** ** Set and Get *)

(** [Get] on a reachable [simple] cache does not panic.  For a key that is
    not in the Key Index it returns [nil] and changes nothing; for a key with
    entry [e] it returns the stored value and moves [e] to the front of the
    queue, the other entries keeping their order. *)
Theorem simple_Get_contract (key : string) (c : simple.LRU) :
  simple_reachable c →
  (simple.items c !! key = None → simple.Get key c = Some (nil, c)) ∧
  (∀ e, simple.items c !! key = Some e →
     ∃ it, simple.heap c !! e = Some it ∧
           simple.Get key c =
             Some (simple.Value it,
                   simple.mkLRU (simple.cap c) (simple.items c)
                     (e :: clist.Remove e (simple.queue c))
                     (simple.heap c))).
Proof.
  intros Hwf%simple_reachable_wf.
  destruct (simple_Get_spec key c Hwf)
    as [[Hk HG]|(e & it & Hk & Hit & _ & HG & _)].
  - split; [done|]. intros e He. congruence.
  - split; [congruence|]. intros e' He'. assert (e' = e) as -> by congruence.
    eauto.
Qed.

Lemma simple_Get_contract_witness :
  simple.Get "C" simple_demo = Some (nil, simple_demo) ∧
  ∃ it, simple.heap simple_demo !! 1%positive = Some it ∧
        simple.Get "A" simple_demo =
          Some (simple.Value it,
                simple.mkLRU 2 (simple.items simple_demo)
                  [1%positive; 2%positive] (simple.heap simple_demo)).
Proof.
  split.
  - apply (simple_Get_contract "C" simple_demo simple_demo_reachable).
    vm_compute. reflexivity.
  - destruct (simple_Get_contract "A" simple_demo simple_demo_reachable)
      as [_ H].
    destruct (H 1%positive) as (it & Hit & HG); [vm_compute; reflexivity|].
    exists it. split; [done|]. rewrite HG. vm_compute. reflexivity.
Defined.

(** [Set] on a reachable [simple] cache does not panic, and a [Get] of the
    same key right after it returns the value just set and changes nothing,
    the entry being at the front already. *)
Theorem simple_Set_then_Get (key : string) (value : any) (c : simple.LRU) :
  simple_reachable c →
  ∃ c', simple.Set_ key value c = Some c' ∧
        simple.Get key c' = Some (value, c').
Proof.
  intros Hwf%simple_reachable_wf.
  assert (Hfront : ∀ e rest c', simple.queue c' = e :: rest → simple_wf c' →
            simple.items c' !! key = Some e →
            simple.heap c' !! e = Some (simple.mkItem key value) →
            simple.Get key c' = Some (value, c')).
  { intros e rest c' Hq Hwf' Hk Hit. unfold simple.Get.
    rewrite Hk, Hit. simpl. do 2 f_equal.
    rewrite MoveToFront_elem by (rewrite Hq; by left).
    assert (clist.Remove e (simple.queue c') = rest) as ->.
    { rewrite Hq. unfold clist.Remove. rewrite filter_cons_False by auto.
      apply Remove_not_elem. destruct Hwf' as [Hnd _]. rewrite Hq in Hnd.
      by apply NoDup_cons in Hnd as [? _]. }
    rewrite <- Hq. by destruct c'. }
  destruct (simple.items c !! key) as [e|] eqn:Hk.
  - destruct (simple_Set_update_spec key value e c Hwf Hk)
      as (it & _ & _ & HS & Hwf').
    eexists. split; [exact HS|].
    eapply Hfront; simpl; [done|done|done|]. apply lookup_insert_eq.
  - destruct (simple_Set_insert_spec key value c Hwf Hk)
      as (c1 & _ & _ & _ & _ & _ & HS & Hwf').
    eexists. split; [exact HS|].
    eapply Hfront; simpl; [done|done|..]; apply lookup_insert_eq.
Qed.

Lemma simple_Set_then_Get_witness :
  ∃ c', simple.Set_ "C" (IntVal 3) simple_demo = Some c' ∧
        simple.Get "C" c' = Some (IntVal 3, c').
Proof.
  apply (simple_Set_then_Get "C" (IntVal 3) simple_demo simple_demo_reachable).
Defined.

(** ** Eviction *)

(** [Set] of a key that is not in the Key Index of a reachable [simple]
    cache.  When the length of the queue differs from the capacity, or the
    queue is empty, nothing is evicted and the new entry is pushed to the
    front.  When the length of the queue equals the capacity and the queue
    ends with [e0], the key of [e0] leaves the Key Index, [e0] leaves the
    queue and the new entry is pushed to the front. *)
Theorem simple_Set_new_key (key : string) (value : any) (c : simple.LRU) :
  simple_reachable c → simple.items c !! key = None →
  ∃ c',
    simple.Set_ key value c = Some c' ∧
    (Z.of_nat (length (simple.queue c)) ≠ simple.cap c ∨ simple.queue c = [] →
     ∃ e, simple.heap c !! e = None ∧
          simple.items c' = <[key := e]> (simple.items c) ∧
          simple.queue c' = e :: simple.queue c) ∧
    (Z.of_nat (length (simple.queue c)) = simple.cap c →
     ∀ q e0, simple.queue c = q ++ [e0] →
     ∃ e it0, simple.heap c !! e = None ∧
          simple.heap c !! e0 = Some it0 ∧
          simple.items c !! simple.Key it0 = Some e0 ∧
          simple.items c' =
            <[key := e]> (delete (simple.Key it0) (simple.items c)) ∧
          simple.queue c' = e :: q).
Proof.
  intros Hwf%simple_reachable_wf Hk.
  destruct (simple_Set_insert_spec key value c Hwf Hk)
    as (c1 & Hc1 & _ & _ & _ & He & HS & _).
  eexists. split; [exact HS|]. split.
  - intros Hcase. assert (c1 = c) as ->.
    { destruct (Z.eqb_spec (Z.of_nat (length (simple.queue c))) (simple.cap c))
        as [Heq|Hne]; [|congruence].
      destruct Hcase as [Hne|Hq]; [done|].
      unfold simple.purge in Hc1. rewrite Hq in Hc1. simpl in Hc1.
      congruence. }
    eexists. split_and!; [exact He|done..].
  - intros Hfull q e0 Hq. apply Z.eqb_eq in Hfull. rewrite Hfull in Hc1.
    destruct (simple_purge_spec c Hwf)
      as [[Hq' _]|(q' & e' & it & Hq' & Hit & Hi & Hp & _)].
    { rewrite Hq in Hq'. by destruct q. }
    rewrite Hq in Hq'. apply app_inj_tail in Hq' as [<- <-].
    rewrite Hp in Hc1. injection Hc1 as <-.
    eexists _, it. split_and!; [exact He|done..].
Qed.

Lemma simple_Set_new_key_witness :
  ∃ c' e it0,
    simple.Set_ "C" (IntVal 3) simple_demo = Some c' ∧
    simple.heap simple_demo !! 1%positive = Some it0 ∧
    simple.items c' =
      <[ "C"%string := e]> (delete (simple.Key it0) (simple.items simple_demo)) ∧
    simple.queue c' = [e; 2%positive].
Proof.
  destruct (simple_Set_new_key "C" (IntVal 3) simple_demo simple_demo_reachable)
    as (c' & HS & _ & Hev); [vm_compute; reflexivity|].
  destruct (Hev ltac:(vm_compute; reflexivity) [2%positive] 1%positive)
    as (e & it0 & _ & Hit0 & _ & Hi & Hq); [vm_compute; reflexivity|].
  exists c', e, it0. split_and!; done.
Defined.

(** [NewLru] keeps a capacity of 0 or below as it is, and such a cache never
    evicts: after [Set]s of pairwise distinct keys every key is in the Key
    Index and the queue is as long as the sequence. *)
Theorem simple_nonpositive_capacity_unbounded (capacity : Z)
    (l : list (string * any)) :
  capacity ≤ 0 → NoDup (l.*1) →
  ∃ c, simple.run_sets l (simple.NewLru capacity) = Some c ∧
       simple.cap c = capacity ∧
       length (simple.queue c) = length l ∧
       ∀ k, k ∈ l.*1 → is_Some (simple.items c !! k).
Proof.
  intros Hcap Hnd.
  assert (Hgen : ∀ l c, simple_wf c → simple.cap c ≤ 0 → NoDup (l.*1) →
            (∀ k, k ∈ l.*1 → simple.items c !! k = None) →
            ∃ c', simple.run_sets l c = Some c' ∧
                  simple.cap c' = simple.cap c ∧
                  length (simple.queue c')
                    = (length (simple.queue c) + length l)%nat ∧
                  ∀ k, is_Some (simple.items c' !! k) ↔
                       is_Some (simple.items c !! k) ∨ k ∈ l.*1).
  { clear. induction l as [|[k v] l IH]; intros c Hwf Hcap Hnd Hnew; simpl.
    - exists c. split_and!; [done|done|lia|]. intros k. rewrite elem_of_nil.
      tauto.
    - apply NoDup_cons in Hnd as [Hk Hnd].
      destruct (simple_Set_insert_spec k v c Hwf) as
        (c1 & Hc1 & _ & _ & _ & _ & HS & Hwf').
      { apply Hnew. by left. }
      assert (c1 = c) as ->.
      { destruct (Z.eqb_spec (Z.of_nat (length (simple.queue c)))
                    (simple.cap c)) as [Heq|Hne]; [|congruence].
        destruct (simple.queue c) as [|e q] eqn:Hq; [|simpl in Heq; lia].
        unfold simple.purge in Hc1. rewrite Hq in Hc1. simpl in Hc1.
        congruence. }
      rewrite HS. simpl.
      destruct (IH _ Hwf') as (c' & Hr & Hc' & Hl & Hdom); [done|done|..].
      + intros k' Hk'. simpl.
        rewrite lookup_insert_ne by (intros <-; done). apply Hnew. by right.
      + exists c'. split; [done|]. split; [done|]. split.
        * rewrite Hl. simpl. lia.
        * intros k'. rewrite Hdom. simpl. rewrite elem_of_cons.
          destruct (decide (k = k')) as [->|Hne].
          -- rewrite lookup_insert_eq. split; [auto|]. intros _. left. eauto.
          -- rewrite lookup_insert_ne by done. split; [tauto|].
             intros [?|[?|?]]; [tauto|congruence|tauto]. }
  destruct (Hgen l (simple.NewLru capacity)) as (c & Hr & Hc & Hl & Hdom).
  - apply simple_wf_NewLru.
  - done.
  - done.
  - intros k _. apply lookup_empty.
  - exists c. split_and!; try done. intros k Hk. apply Hdom. by right.
Qed.

Lemma simple_nonpositive_capacity_unbounded_witness :
  ∃ c, simple.run_sets [("A"%string, IntVal 1); ("B"%string, IntVal 2);
                        ("C"%string, IntVal 3)] (simple.NewLru (-1)) = Some c ∧
       simple.cap c = -1 ∧
       length (simple.queue c) = 3%nat ∧
       ∀ k, k ∈ ["A"%string; "B"%string; "C"%string] →
            is_Some (simple.items c !! k).
Proof.
  apply (simple_nonpositive_capacity_unbounded (-1)
           [("A"%string, IntVal 1); ("B"%string, IntVal 2);
            ("C"%string, IntVal 3)]).
  - lia.
  - apply (bool_decide_unpack _). vm_compute. exact I.
Defined.

(** ** The [ttl] cache seen as a [simple] cache *)

(** On the capacity, the Key Index, the recency queue and the keys and values
    of the cells, [Add] of the [ttl] cache in a reachable state is [Set] of
    the [simple] cache, at every clock reading. *)
Theorem Add_simulates_simple_Set (key : string) (value : any) (now : Z)
    (c c' : LRU) :
  reachable c → Add key value now c = Some c' →
  simple.Set_ key value (forget c) = Some (forget c').
Proof.
  intros Hwf%reachable_wf HA. unfold simple.Set_, forget at 1 2. simpl.
  destruct (items c !! key) as [e|] eqn:Hk.
  - destruct (Add_update_spec key value now e c Hwf Hk)
      as (it & b0 & b & Hit & HK & _ & _ & _ & HA' & _).
    rewrite HA' in HA. injection HA as <-.
    rewrite lookup_fmap, Hit. simpl. unfold forget. simpl.
    rewrite !fmap_insert, insert_insert_eq. simpl. by rewrite HK.
  - destruct (Add_insert_spec key value now c Hwf Hk)
      as (c1 & b & Hc1 & Hwf1 & _ & _ & _ & HA' & _).
    rewrite HA' in HA. injection HA as <-.
    rewrite (wf_queue_length c Hwf). unfold Len.
    assert (Hp : (if Z.of_nat (size (items c)) =? cap c
                  then simple.purge (forget c) else Some (forget c))
                 = Some (forget c1)).
    { destruct (Z.of_nat (size (items c)) =? cap c);
        [|by injection Hc1 as <-].
      unfold simple.purge. simpl.
      destruct (removeOldest_spec c Hwf)
        as [[Hq Hr]|(q & e & it & b1 & Hq & Hit & _ & _ & _ & Hr & _)];
        rewrite Hr in Hc1; injection Hc1 as <-.
      - by rewrite Hq.
      - rewrite Hq, Back_snoc. simpl. rewrite lookup_fmap, Hit. simpl.
        by rewrite <- Hq. }
    fold (forget c). rewrite Hp. simpl. unfold forget. simpl.
    rewrite dom_fmap_L, !fmap_insert, insert_insert_eq. done.
Qed.

Lemma Add_simulates_simple_Set_witness :
  ∃ c', Add "C" (IntVal 3) 30 demo = Some c' ∧
        simple.Set_ "C" (IntVal 3) (forget demo) = Some (forget c').
Proof.
  destruct (Add "C" (IntVal 3) 30 demo) as [c'|] eqn:HA;
    [|by vm_compute in HA].
  exists c'. split; [done|].
  apply (Add_simulates_simple_Set "C" (IntVal 3) 30 demo c' demo_reachable HA).
Defined.

(** [Get] of the [ttl] cache, when it finds the key or the key is not in the
    Key Index, is [Get] of the [simple] cache: same value, same queue. *)
Theorem Get_simulates_simple_Get (key : string) (now : Z) (c c' : LRU)
    (v : any) (found : bool) :
  reachable c → Get key now c = Some (v, found, c') →
  found = true ∨ items c !! key = None →
  simple.Get key (forget c) = Some (v, forget c').
Proof.
  intros Hwf%reachable_wf HG Hcase. unfold simple.Get, forget at 1 2. simpl.
  destruct (Get_spec key now c Hwf)
    as [[Hk HG']|(e & it & Hk & Hit & _ & _ & HG')]; rewrite HG' in HG.
  - injection HG as <- <- <-. by rewrite Hk.
  - rewrite Hk, lookup_fmap, Hit. simpl.
    destruct (time.After now (ExpiresAt it)); injection HG as <- <- <-.
    + destruct Hcase; congruence.
    + done.
Qed.

Lemma Get_simulates_simple_Get_witness :
  ∃ c', Get "A" 12 demo = Some (IntVal 1, true, c') ∧
        simple.Get "A" (forget demo) = Some (IntVal 1, forget c').
Proof.
  destruct (Get "A" 12 demo) as [[[v f] c']|] eqn:HG; [|by vm_compute in HG].
  assert (v = IntVal 1 ∧ f = true) as [-> ->].
  { vm_compute in HG. by injection HG as <- <- _. }
  exists c'. split; [done|].
  apply (Get_simulates_simple_Get "A" 12 demo c' (IntVal 1) true
           demo_reachable HG). by left.
Defined.

(** * The sweeper destroys expired entries only *)






(** * A full turn of the sweeper *)

(** One [deleteExpired] with no call during its sleep. *)
Lemma deleteExpired_step (now : Z) (c : LRU) :
  wf c →
  ∃ c', deleteExpired now c = Some c' ∧ wf c' ∧
        nextCleanupBucket c' = (nextCleanupBucket c + 1) mod numBuckets ∧
        (∀ b', buckets c' !! Z.to_nat (nextCleanupBucket c) = Some b' →
               entries b' = ∅) ∧
        (∀ i, i ≠ Z.to_nat (nextCleanupBucket c) →
              buckets c' !! i = buckets c !! i).
Proof.
  intros Hwf. pose proof (wf_cursor c (proj1 Hwf)) as Hcur.
  destruct (lookup_lt_is_Some_2 (buckets c) (Z.to_nat (nextCleanupBucket c)))
    as [b Hb].
  { rewrite (wf_buckets_len c (proj1 Hwf)). unfold numBuckets in *. lia. }
  destruct (deleteExpired_sweep_from_spec c b (map_to_list (entries b)) Hwf Hb)
    as (c' & Hs & Hwf' & Hn & _ & _ & Hempty); [done|].
  exists c'. split_and!; try done.
  - unfold deleteExpired, deleteExpired_wait, deleteExpired_sweep.
    rewrite Hb. simpl. rewrite Hb. simpl. exact Hs.
  - unfold deleteExpired_sweep_from in Hs.
    destruct (deleteExpired_loop (nextCleanupBucket c) (map_to_list (entries b))
                c) as [c1|] eqn:Hloop; simpl in Hs; [|done].
    injection Hs as <-. simpl.
    rewrite <- (Z2Nat.id (nextCleanupBucket c)) in Hloop by lia.
    assert (Hlt : (Z.to_nat (nextCleanupBucket c) < Z.to_nat numBuckets)%nat)
      by (unfold numBuckets in *; lia).
    destruct (deleteExpired_loop_frame _ (map_to_list (entries b)) c c1
                Hwf Hlt) as (_ & Ho & _); [|exact Hloop|exact Ho].
    intros k e b2 e' Hin%elem_of_map_to_list Hb2 Hl2. congruence.
Qed.

Lemma sweeps_empty (now : Z) (k : nat) (c : LRU) :
  wf c →
  ∃ c', sweeps k now c = Some c' ∧ wf c' ∧
        nextCleanupBucket c'
          = (nextCleanupBucket c + Z.of_nat k) mod numBuckets ∧
        (∀ j b, (j < k)%nat →
           buckets c' !! Z.to_nat ((nextCleanupBucket c + Z.of_nat j)
                                     mod numBuckets) = Some b →
           entries b = ∅) ∧
        (∀ i, (∀ b, buckets c !! i = Some b → entries b = ∅) →
              ∀ b, buckets c' !! i = Some b → entries b = ∅).
Proof.
  revert c. induction k as [|k IH]; intros c Hwf; simpl.
  - pose proof (wf_cursor c (proj1 Hwf)) as Hcur.
    exists c. split_and!; try done; [|intros; lia].
    rewrite Z.add_0_r, Z.mod_small; [done|lia].
  - pose proof (wf_cursor c (proj1 Hwf)) as Hcur.
    destruct (deleteExpired_step now c Hwf)
      as (c1 & Hd & Hwf1 & Hn1 & Hempty & Ho).
    rewrite Hd. simpl.
    destruct (IH c1 Hwf1) as (c' & Hs & Hwf' & Hn & Hdone & Hkeep).
    assert (Hstep : ∀ i, (∀ b, buckets c !! i = Some b → entries b = ∅) →
                         ∀ b, buckets c1 !! i = Some b → entries b = ∅).
    { intros i Hi b Hb.
      destruct (decide (i = Z.to_nat (nextCleanupBucket c))) as [->|Hne].
      - by apply Hempty.
      - rewrite (Ho i Hne) in Hb. by apply Hi. }
    assert (Hmod : ∀ j : Z, ((nextCleanupBucket c + 1) mod numBuckets + j)
                            mod numBuckets
                            = (nextCleanupBucket c + (1 + j)) mod numBuckets).
    { intros j. rewrite Zplus_mod_idemp_l. f_equal. lia. }
    exists c'. split_and!; try done.
    + rewrite Hn, Hn1, Hmod. f_equal. lia.
    + intros j b Hj Hb. destruct j as [|j].
      * rewrite Z.add_0_r, Z.mod_small in Hb by lia.
        apply (Hkeep _ Hempty _ Hb).
      * apply (Hdone j b ltac:(lia)). rewrite Hn1, Hmod.
        replace (1 + Z.of_nat j) with (Z.of_nat (S j)) by lia. exact Hb.
    + intros i Hi. apply Hkeep. by apply Hstep.
Qed.

(** A hundred runs of [deleteExpired] with no call in between, from any
    reachable state: none panics, every bucket has been cleared, the Key
    Index and the recency queue are empty, and the cursor is back where it
    started. *)
Theorem full_turn_empties (now : Z) (c : LRU) :
  reachable c →
  ∃ c', sweeps 100 now c = Some c' ∧
        items c' = ∅ ∧ queue c' = [] ∧
        (∀ i b, buckets c' !! i = Some b → entries b = ∅) ∧
        nextCleanupBucket c' = nextCleanupBucket c.
Proof.
  intros Hwf%reachable_wf. pose proof (wf_cursor c (proj1 Hwf)) as Hcur.
  destruct (sweeps_empty now 100 c Hwf) as (c' & Hs & Hwf' & Hn & Hdone & _).
  unfold numBuckets in *.
  assert (Hall : ∀ i b, buckets c' !! i = Some b → entries b = ∅).
  { intros i b Hb. pose proof (lookup_lt_Some _ _ _ Hb) as Hi.
    rewrite (wf_buckets_len c' (proj1 Hwf')) in Hi. unfold numBuckets in Hi.
    apply (Hdone (Z.to_nat ((Z.of_nat i - nextCleanupBucket c) mod 100)) b).
    { pose proof (Z.mod_pos_bound (Z.of_nat i - nextCleanupBucket c) 100).
      lia. }
    rewrite Z2Nat.id by (apply Z.mod_pos_bound; lia).
    rewrite Zplus_mod_idemp_r.
    replace (nextCleanupBucket c + (Z.of_nat i - nextCleanupBucket c))
      with (Z.of_nat i) by lia.
    rewrite Z.mod_small by lia. by rewrite Nat2Z.id. }
  assert (Hitems : items c' = ∅).
  { apply map_empty. intros k. destruct (items c' !! k) as [e|] eqn:Hk; [|done].
    destruct (proj2 Hwf' k e Hk) as (it & b & _ & Hb & Hl).
    rewrite (Hall _ _ Hb) in Hl. by rewrite lookup_empty in Hl. }
  exists c'. split_and!; try done.
  - destruct (queue c') as [|e q] eqn:Hq; [done|].
    destruct (wf_queue c' (proj1 Hwf') e) as (it & _ & Hi); [rewrite Hq; by left|].
    rewrite Hitems in Hi. by rewrite lookup_empty in Hi.
  - rewrite Hn. change (Z.of_nat 100) with (1 * 100).
    rewrite Z.mod_add, Z.mod_small; lia.
Qed.

Lemma full_turn_empties_witness :
  ∃ c', sweeps 100 100 demo = Some c' ∧
        items c' = ∅ ∧ queue c' = [] ∧
        (∀ i b, buckets c' !! i = Some b → entries b = ∅) ∧
        nextCleanupBucket c' = nextCleanupBucket demo.
Proof. apply (full_turn_empties 100 demo demo_reachable). Defined.
